(** * Runtime configuration injection for a containerised frontend

    A verification development for the three pieces of the repository:

    - the build-time HTML transform ([replacePlugin] / [transformIndexHtml]
      of vite.config.ts),
    - the startup generator (start.sh), which writes
      /var/www/app/config/front.env.js from the process environment and
      then runs the web server,
    - the runtime accessor (src/config/constants.ts), which resolves a
      configuration key from [import.meta.env] or from [window._env_].

    Text is a list of characters, the bytes of its UTF-8 form; the marker,
    the script tag and every token of the generated script are ASCII, so
    their occurrences are the same character by character and byte by
    byte. JavaScript objects used as dictionaries and the file system are
    finite maps. *)

From Stdlib Require Import Ascii String List Bool Arith ZArith Lia.
From stdpp Require Import gmap strings list fin_maps.
Import ListNotations.

Abbreviation text := (list ascii).

(** Literals are written as ordinary string literals and converted. *)
Definition txt (s : string) : text := list_ascii_of_string s.

Definition LF : ascii := "010"%char.
Definition CR : ascii := "013"%char.
Definition TAB : ascii := "009"%char.
Definition SP : ascii := " "%char.
Definition DQ : ascii := "034"%char.
Definition BACKSLASH : ascii := "\"%char.

(** ** Text primitives *)

(** [starts_with p s]: [p] is a prefix of [s]. *)
Fixpoint starts_with (p s : text) : bool :=
  match p, s with
  | [], _ => true
  | _ :: _, [] => false
  | a :: p', b :: s' => Ascii.eqb a b && starts_with p' s'
  end.

(** Position of the first occurrence of [p] in [s] (StringIndexOf from 0). *)
Fixpoint index_of (p s : text) : option nat :=
  if starts_with p s then Some 0
  else match s with
       | [] => None
       | _ :: s' => option_map S (index_of p s')
       end.

(** Number of positions of [s] at which [p] occurs. *)
Fixpoint occurrences (p s : text) : nat :=
  (if starts_with p s then 1 else 0) +
  match s with
  | [] => 0
  | _ :: s' => occurrences p s'
  end.

(** [agrees a b]: [a] and [b] coincide on their common length, that is, one
    of them is a prefix of the other. *)
Fixpoint agrees (a b : text) : bool :=
  match a, b with
  | x :: a', y :: b' => Ascii.eqb x y && agrees a' b'
  | _, _ => true
  end.

(** [no_overlap q x]: no non-empty suffix of [q] agrees with [x]; a copy of
    [x] can therefore neither start inside [q] nor be started by a suffix of
    [q]. *)
Fixpoint no_overlap (q x : text) : bool :=
  match q with
  | [] => true
  | _ :: q' => negb (agrees q x) && no_overlap q' x
  end.

(** ** The build-time transform (vite.config.ts) *)

(** GetSubstitution of ECMAScript for a string pattern (no captures):
    [$$] is a dollar sign, [$&] the matched text, [$`] the text before the
    match, [$'] the text after it; every other character stands for
    itself. *)
Fixpoint get_substitution (matched before after template : text) : text :=
  match template with
  | [] => []
  | "$"%char :: "$"%char :: t =>
      "$"%char :: get_substitution matched before after t
  | "$"%char :: "&"%char :: t =>
      matched ++ get_substitution matched before after t
  | "$"%char :: "`"%char :: t =>
      before ++ get_substitution matched before after t
  | "$"%char :: "'"%char :: t =>
      after ++ get_substitution matched before after t
  | c :: t => c :: get_substitution matched before after t
  end.

(** [String.prototype.replace] with a string pattern: only the first
    occurrence is replaced; without an occurrence the receiver is
    returned as it is. *)
Definition js_replace (pat template s : text) : text :=
  match index_of pat s with
  | None => s
  | Some i =>
      let before := take i s in
      let after := drop (i + length pat) s in
      before ++ get_substitution pat before after template ++ after
  end.

Definition ENV_marker : text := txt "<!-- ENV -->".

Definition script_tag : text :=
  txt "<script src=" ++ [DQ] ++ txt "./config/front.env.js" ++ [DQ]
    ++ txt "></script>".

Definition transformIndexHtml (html : text) : text :=
  js_replace ENV_marker script_tag html.

(** ** The runtime accessor (src/config/constants.ts) *)

(** JavaScript values that a configuration source can hold. Numbers are
    kept to the integers, which is enough to tell zero from the rest. *)
Inductive js_value :=
| JUndefined
| JNull
| JBool (b : bool)
| JNumber (n : Z)
| JString (s : text).

(** Evaluating an expression either yields a value or throws. *)
Inductive completion :=
| Normal (v : js_value)
| ThrowTypeError.

(** [import.meta.env]: the values substituted at build time. *)
Abbreviation ImportMetaEnv := (gmap text js_value).

(** [interface Window { _env_: { [key: string]: string } }]. The global is
    there once the generated script has run; before that (or when the
    script could not be loaded) [window._env_] is undefined. *)
Record Window := { _env_ : option (gmap text text) }.

(** Reading a property of an object: a missing property is [undefined]. *)
Definition get_property (o : gmap text js_value) (k : text) : js_value :=
  match o !! k with
  | Some v => v
  | None => JUndefined
  end.

(** The entry of the runtime configuration object for a key. *)
Definition entry (o : gmap text text) (k : text) : js_value :=
  match o !! k with
  | Some s => JString s
  | None => JUndefined
  end.

(** [window._env_.k]: reading a property of [undefined] throws. *)
Definition window_env_member (w : Window) (k : text) : completion :=
  match _env_ w with
  | None => ThrowTypeError
  | Some o => Normal (entry o k)
  end.

(** [l ?? r]: the right operand is used only when the left one is
    [null] or [undefined]. *)
Definition nullish_coalesce (l : js_value) (r : completion) : completion :=
  match l with
  | JUndefined | JNull => r
  | _ => Normal l
  end.

Definition STAGE (ime : ImportMetaEnv) (w : Window) : completion :=
  nullish_coalesce (get_property ime (txt "STAGE"))
                   (window_env_member w (txt "STAGE")).

Definition API_URL (ime : ImportMetaEnv) (w : Window) : completion :=
  nullish_coalesce (get_property ime (txt "API_URL"))
                   (window_env_member w (txt "API_URL")).

Definition ENV_TEST (ime : ImportMetaEnv) (w : Window) : completion :=
  nullish_coalesce (get_property ime (txt "ENV_TEST"))
                   (window_env_member w (txt "ENV_TEST")).

(** The configuration keys the two versions of constants.ts export. *)
Inductive config_key := KeySTAGE | KeyAPI_URL | KeyENV_TEST.

Definition key_name (k : config_key) : text :=
  match k with
  | KeySTAGE => txt "STAGE"
  | KeyAPI_URL => txt "API_URL"
  | KeyENV_TEST => txt "ENV_TEST"
  end.

Definition accessor (k : config_key) : ImportMetaEnv -> Window -> completion :=
  match k with
  | KeySTAGE => STAGE
  | KeyAPI_URL => API_URL
  | KeyENV_TEST => ENV_TEST
  end.

(** A build-time value is provided when it is neither [undefined] nor
    [null]. *)
Definition provided (v : js_value) : bool :=
  match v with
  | JUndefined | JNull => false
  | _ => true
  end.

(** ToBoolean is false. *)
Definition falsy (v : js_value) : bool :=
  match v with
  | JUndefined | JNull => true
  | JBool b => negb b
  | JNumber n => Z.eqb n 0
  | JString s => match s with [] => true | _ => false end
  end.

(** ** The startup generator (start.sh) *)

(** *** Text utilities of the shell *)

(** Lines of a stream: text up to each line feed, and what follows the
    last one when it is not empty. *)
Fixpoint lines (s : text) : list text :=
  match s with
  | [] => []
  | c :: s' =>
      if Ascii.eqb c LF then [] :: lines s'
      else match lines s' with
           | [] => [[c]]
           | l :: ls => (c :: l) :: ls
           end
  end.

Definition unlines (ls : list text) : text :=
  concat (map (fun l => l ++ [LF]) ls).

(** The default IFS: space, tab, line feed. *)
Definition is_IFS (c : ascii) : bool :=
  Ascii.eqb c SP || Ascii.eqb c TAB || Ascii.eqb c LF.

(** Field splitting of an unquoted expansion: maximal runs of characters
    that are not in IFS. *)
Fixpoint fields (s : text) : list text :=
  match s with
  | [] => []
  | c :: s' =>
      if is_IFS c then fields s'
      else if match s' with
              | d :: _ => negb (is_IFS d)
              | [] => false
              end
           then match fields s' with
                | w :: ws => (c :: w) :: ws
                | [] => [[c]]
                end
           else [c] :: fields s'
  end.

(** Operands as [echo] prints them: separated by single spaces. *)
Fixpoint unwords (ws : list text) : text :=
  match ws with
  | [] => []
  | [w] => w
  | w :: ws' => w ++ SP :: unwords ws'
  end.

(** Command substitution [$(...)] drops the line feeds at the end of the
    output. *)
Fixpoint strip_trailing_LF (s : text) : text :=
  match s with
  | [] => []
  | c :: s' =>
      match strip_trailing_LF s' with
      | [] => if Ascii.eqb c LF then [] else [c]
      | r => c :: r
      end
  end.

Definition between (lo hi c : ascii) : bool :=
  (nat_of_ascii lo <=? nat_of_ascii c) && (nat_of_ascii c <=? nat_of_ascii hi).

Definition is_letter (c : ascii) : bool :=
  between "a" "z" c || between "A" "Z" c.

Definition is_digit (c : ascii) : bool := between "0" "9" c.

(** A shell Name: letters, digits and underscores, not starting with a
    digit. *)
Definition is_Name (w : text) : bool :=
  match w with
  | [] => false
  | c :: r =>
      (is_letter c || Ascii.eqb c "_")
      && forallb (fun d => is_letter d || is_digit d || Ascii.eqb d "_") r
  end.

Definition text_eqb (a b : text) : bool := bool_decide (a = b).

(** [lacks c s]: the character [c] does not occur in [s]. *)
Definition lacks (c : ascii) (s : text) : bool :=
  forallb (fun d => negb (Ascii.eqb d c)) s.

(** *** The environment and the commands of the pipeline *)

(** The process environment: one entry per variable, in the order in which
    [env] prints them. *)
Abbreviation environment := (list (text * text)).

(** [$NAME]: the value of the variable, empty when it is not set. *)
Definition getenv (e : environment) (name : text) : text :=
  match find (fun nv => text_eqb (fst nv) name) e with
  | Some nv => snd nv
  | None => []
  end.

(** [env]: one line [NAME=value] per entry. *)
Definition env (e : environment) : text :=
  unlines (map (fun nv => fst nv ++ "="%char :: snd nv) e).

(** [grep -E "^$prefix"] for a prefix without regular-expression
    operators, as [STAGE] and [API_URL] are: the lines that start with the
    prefix. *)
Definition grep_E_anchored (prefix input : text) : text :=
  unlines (List.filter (starts_with prefix) (lines input)).

(** The first field of a line for the separator [=]. *)
Fixpoint first_field (l : text) : text :=
  match l with
  | [] => []
  | c :: l' => if Ascii.eqb c "=" then [] else c :: first_field l'
  end.

(** [awk -F= '{print $1}']. *)
Definition awk_F_eq_print_1 (input : text) : text :=
  unlines (map first_field (lines input)).

(** The first operand starts with a dash, as an option does. *)
Definition leading_dash (operands : list text) : bool :=
  match operands with
  | ("-"%char :: _) :: _ => true
  | _ => false
  end.

(** [echo]: the operands separated by spaces, then a line feed. POSIX
    leaves the output to the implementation when the first operand is an
    option such as [-n] or when an operand contains a backslash; those
    calls have no result here. *)
Definition echo (operands : list text) : option text :=
  if leading_dash operands || negb (forallb (lacks BACKSLASH) operands)
  then None
  else Some (unwords operands ++ [LF]).

Definition is_glob_char (c : ascii) : bool :=
  Ascii.eqb c "*" || Ascii.eqb c "?" || Ascii.eqb c "[".

Definition no_glob (w : text) : bool :=
  forallb (fun c => negb (is_glob_char c)) w.

(** The words of [for var in $(env | grep -E "^$prefix" | awk -F= '{print $1}')].
    A word that is not a Name beginning with the prefix comes from an entry
    whose name is not a Name or whose value spans several lines; the text
    that [eval] then runs may be any shell text, or may read the script's
    own variables, and has no result here. *)
Definition loop_words (e : environment) (prefix : text) : option (list text) :=
  let ws :=
    fields (strip_trailing_LF
              (awk_F_eq_print_1 (grep_E_anchored prefix (env e)))) in
  if forallb (fun w => is_Name w && starts_with prefix w) ws
  then Some ws else None.

(** [$(eval echo "\$$var")] for a Name [var]: [eval] runs [echo $var], whose
    unquoted expansion is split into fields. A field with a pattern
    character would undergo pathname expansion against the working
    directory and has no result here. *)
Definition eval_echo (e : environment) (var : text) : option text :=
  let operands := fields (getenv e var) in
  if forallb no_glob operands
  then option_map strip_trailing_LF (echo operands)
  else None.

(** *** Files, events and commands *)

Inductive open_mode := Truncate | Append.

Inductive event :=
| Stdout (data : text)
| Mkdir (path : text) (ok : bool)
| OpenFile (path : text) (mode : open_mode) (ok : bool)
| WriteFile (path : text) (data : text) (ok : bool)
| Run (argv : list text).

(** The regular files by path, and what has happened so far, oldest event
    first. *)
Record world := {
  files : gmap text text;
  trace : list event
}.

Definition log (ev : event) (w : world) : world :=
  {| files := files w; trace := trace w ++ [ev] |}.

Definition set_files (f : gmap text text) (w : world) : world :=
  {| files := f; trace := trace w |}.

(** A command runs in a world and leaves an exit status; it has no result
    where the text utilities above have none. *)
Definition sh (A : Type) : Type := world -> option (A * world).

#[global] Instance sh_ret : MRet sh := fun A a w => Some (a, w).

#[global] Instance sh_bind : MBind sh := fun A B k c w =>
  match c w with
  | Some (a, w') => k a w'
  | None => None
  end.

Definition lift {A} (o : option A) : sh A := fun w =>
  match o with
  | Some a => Some (a, w)
  | None => None
  end.

(** [fault k] tells whether the file-system operation attempted as event
    number [k] fails (read-only or full file system, missing permission). *)
Definition is_event_ok (fault : nat -> bool) (w : world) : bool :=
  negb (fault (length (trace w))).

(** [echo operands] to the terminal. *)
Definition echo_stdout (operands : list text) : sh nat := fun w =>
  match echo operands with
  | Some out => Some (0, log (Stdout out) w)
  | None => None
  end.

(** [mkdir -p path]. *)
Definition mkdir_p (fault : nat -> bool) (path : text) : sh nat := fun w =>
  if is_event_ok fault w then Some (0, log (Mkdir path true) w)
  else Some (1, log (Mkdir path false) w).

Definition opened (mode : open_mode) (path : text) (f : gmap text text)
  : gmap text text :=
  match mode, f !! path with
  | Append, Some _ => f
  | _, _ => <[path := []]> f
  end.

Definition appended (path data : text) (f : gmap text text) : gmap text text :=
  <[path := match f !! path with Some old => old | None => [] end ++ data]> f.

(** What a redirection does with the output of its command: the shell
    opens the file first. When that fails the command is not run; a failed
    write leaves the file as the opening made it. Either way the status is
    not zero. *)
Definition redirect (fault : nat -> bool) (mode : open_mode) (path out : text)
    (w : world) : nat * world :=
  if is_event_ok fault w then
    let w1 := log (OpenFile path mode true)
                  (set_files (opened mode path (files w)) w) in
    if is_event_ok fault w1 then
      (0, log (WriteFile path out true)
              (set_files (appended path out (files w1)) w1))
    else (1, log (WriteFile path out false) w1)
  else (1, log (OpenFile path mode false) w).

(** [echo operands > path] and [echo operands >> path]. *)
Definition echo_to (fault : nat -> bool) (mode : open_mode) (path : text)
    (operands : list text) : sh nat := fun w =>
  match echo operands with
  | Some out => Some (redirect fault mode path out w)
  | None => None
  end.

(** [for x in words; do body; done]. *)
Fixpoint sh_for (words : list text) (body : text -> sh nat) : sh nat :=
  match words with
  | [] => mret 0
  | x :: rest => body x ;; sh_for rest body
  end.

(** [nginx -g "daemon off;"]: the server runs in the foreground until it
    ends with a status of its own. *)
Definition nginx (status : nat) (argv : list text) : sh nat := fun w =>
  Some (status, log (Run (txt "nginx" :: argv)) w).

(** *** The script *)

Definition ENV_VARS : text := txt "STAGE API_URL".

Definition config_dir : text := txt "/var/www/app/config/".

Definition front_env_js : text := txt "/var/www/app/config/front.env.js".

(** The operand of [echo "    $var: \"$value\","]. *)
Definition property_line (var value : text) : text :=
  txt "    " ++ var ++ txt ": " ++ [DQ] ++ value ++ [DQ] ++ txt ",".

(** start.sh, command by command. No command's status is tested and
    [set -e] is not in force, so each command runs whatever became of the
    ones before; the status of the script is that of its last command. *)
Definition start_sh (fault : nat -> bool) (server_status : nat)
    (e : environment) : sh nat :=
  echo_stdout [txt "Configuring environment variables..."] ;;
  mkdir_p fault config_dir ;;
  echo_to fault Truncate front_env_js [txt "window._env_ = {"] ;;
  sh_for (fields ENV_VARS) (fun prefix =>
    vars ← lift (loop_words e prefix);
    sh_for vars (fun var =>
      value ← lift (eval_echo e var);
      echo_to fault Append front_env_js [property_line var value])) ;;
  echo_to fault Append front_env_js [txt "};"] ;;
  echo_stdout [txt "Starting Nginx..."] ;;
  nginx server_status [txt "-g"; txt "daemon off;"].

Definition no_fault : nat -> bool := fun _ => false.

Definition empty_world : world := {| files := ∅; trace := [] |}.

(** ** Loading the generated script in the browser *)

Inductive token :=
| TIdent (name : text)
| TString (value : text)
| TDot | TAssign | TLBrace | TRBrace | TColon | TComma | TSemi.

Inductive lex_mode :=
| Between
| InIdent (acc : text)
| InString (acc : text).

Inductive lex_result :=
| LexOk (ts : list token)
| LexUnterminatedString
| LexUnsupported.

Definition cons_token (t : token) (r : lex_result) : lex_result :=
  match r with
  | LexOk ts => LexOk (t :: ts)
  | _ => r
  end.

Definition punctuator (c : ascii) : option token :=
  if Ascii.eqb c "." then Some TDot
  else if Ascii.eqb c "=" then Some TAssign
  else if Ascii.eqb c "{" then Some TLBrace
  else if Ascii.eqb c "}" then Some TRBrace
  else if Ascii.eqb c ":" then Some TColon
  else if Ascii.eqb c "," then Some TComma
  else if Ascii.eqb c ";" then Some TSemi
  else None.

Definition is_ident_start (c : ascii) : bool :=
  is_letter c || Ascii.eqb c "_" || Ascii.eqb c "$".

Definition is_ident_part (c : ascii) : bool :=
  is_ident_start c || is_digit c.

Definition is_js_space (c : ascii) : bool :=
  Ascii.eqb c SP || Ascii.eqb c TAB || Ascii.eqb c LF || Ascii.eqb c CR.

(** The tokens of a script made of identifier names, double-quoted string
    literals without escapes, the punctuators [. = { } : , ;] and white
    space. A string literal that reaches the end of its line is the one
    certain syntax error; any other character is outside this fragment of
    the language and nothing is said about the script. [acc] holds the
    current token backwards. *)
Fixpoint lex (m : lex_mode) (s : text) : lex_result :=
  match s with
  | [] =>
      match m with
      | Between => LexOk []
      | InIdent acc => LexOk [TIdent (rev acc)]
      | InString _ => LexUnterminatedString
      end
  | c :: s' =>
      match m with
      | InString acc =>
          if Ascii.eqb c DQ then cons_token (TString (rev acc)) (lex Between s')
          else if Ascii.eqb c LF || Ascii.eqb c CR then LexUnterminatedString
          else if Ascii.eqb c BACKSLASH then LexUnsupported
          else lex (InString (c :: acc)) s'
      | InIdent acc =>
          if is_ident_part c then lex (InIdent (c :: acc)) s'
          else
            cons_token (TIdent (rev acc))
              (if is_js_space c then lex Between s'
               else if Ascii.eqb c DQ then lex (InString []) s'
               else match punctuator c with
                    | Some t => cons_token t (lex Between s')
                    | None => LexUnsupported
                    end)
      | Between =>
          if is_ident_start c then lex (InIdent [c]) s'
          else if is_js_space c then lex Between s'
          else if Ascii.eqb c DQ then lex (InString []) s'
          else match punctuator c with
               | Some t => cons_token t (lex Between s')
               | None => LexUnsupported
               end
      end
  end.

(** The properties of an object literal whose keys are identifier names
    and whose values are string literals, up to the closing brace and the
    end of the script; a later property of the same name wins.
    [__proto__] is no ordinary key and is left out of the fragment. *)
Fixpoint parse_properties (ts : list token) (o : gmap text text)
  : option (gmap text text) :=
  match ts with
  | [TRBrace] | [TRBrace; TSemi] => Some o
  | TIdent k :: TColon :: TString v :: rest =>
      if text_eqb k (txt "__proto__") then None
      else match rest with
           | TComma :: rest' => parse_properties rest' (<[k := v]> o)
           | [TRBrace] | [TRBrace; TSemi] => Some (<[k := v]> o)
           | _ => None
           end
  | _ => None
  end.

Inductive load_result :=
| Loaded (o : gmap text text)
| SyntaxError
| OutsideFragment.

(** Loading a script of the form [window._env_ = { k: "v", ... };]:
    [Loaded o] when it parses, and running it leaves [o] in
    [window._env_]. *)
Definition js_load (src : text) : load_result :=
  match lex Between src with
  | LexUnterminatedString => SyntaxError
  | LexUnsupported => OutsideFragment
  | LexOk (TIdent w :: TDot :: TIdent g :: TAssign :: TLBrace :: rest) =>
      if text_eqb w (txt "window") && text_eqb g (txt "_env_") then
        match parse_properties rest ∅ with
        | Some o => Loaded o
        | None => OutsideFragment
        end
      else OutsideFragment
  | LexOk _ => OutsideFragment
  end.

(** *** What the script writes, as a function of the environment *)

Fixpoint traverse {A B} (f : A -> option B) (l : list A) : option (list B) :=
  match l with
  | [] => Some []
  | x :: l' =>
      match f x, traverse f l' with
      | Some y, Some ys => Some (y :: ys)
      | _, _ => None
      end
  end.

(** What one pass of the outer loop appends to the file, one output of
    [echo] per selected variable. *)
Definition loop_outputs (e : environment) (prefix : text) : option (list text) :=
  match loop_words e prefix with
  | Some vars =>
      traverse (fun var =>
                  match eval_echo e var with
                  | Some value => echo [property_line var value]
                  | None => None
                  end) vars
  | None => None
  end.

(** The bytes of front.env.js after a run in which no operation fails. *)
Definition front_env_js_content (e : environment) : option text :=
  match traverse (loop_outputs e) (fields ENV_VARS) with
  | Some outs =>
      Some (txt "window._env_ = {" ++ [LF] ++ concat (concat outs)
              ++ txt "};" ++ [LF])
  | None => None
  end.

(** The environments on which every command of the script has a result:
    the lines of [env] that start with a prefix of [ENV_VARS] begin with a
    Name followed by [=], and the values of those names pass through
    [eval echo] without pathname expansion, options or backslashes. *)
Definition covered (e : environment) : bool :=
  match front_env_js_content e with
  | Some _ => true
  | None => false
  end.

(** Total correctness of a command: from a world that satisfies [P] it has
    a result, and the result satisfies [Q]. *)
Definition triple {A} (P : world -> Prop) (c : sh A) (Q : A -> world -> Prop)
  : Prop :=
  forall w, P w -> exists a w', c w = Some (a, w') /\ Q a w'.

(** Events that are the start of a program. *)
Definition is_Run (ev : event) : bool :=
  match ev with
  | Run _ => true
  | _ => false
  end.

Definition nginx_command : list text :=
  [txt "nginx"; txt "-g"; txt "daemon off;"].

(** [w] continues [w0] without starting a program. *)
Definition quiet_since (w0 w : world) : Prop :=
  exists evs, trace w = trace w0 ++ evs /\ existsb is_Run evs = false.

(** The file [path] of [w] holds [header] followed by [outs]. *)
Definition holds (path header : text) (outs : list text) (w : world) : Prop :=
  files w !! path = Some (header ++ concat outs).

(** A word: not empty, and without a character of IFS. *)
Definition is_word (w : text) : bool :=
  match w with
  | [] => false
  | _ => forallb (fun c => negb (is_IFS c)) w
  end.

(** An entry of the environment as the shell keeps it: the name is a
    Name, and the value fits on one line of the output of [env]. *)
Definition well_formed_entry (nv : text * text) : bool :=
  is_Name (fst nv) && lacks LF (snd nv).

(** A value that passes through [eval echo] and into a string literal:
    no double quote, backslash or carriage return, no pattern character,
    and no dash at the start of its first field. *)
Definition plain_value (v : text) : bool :=
  lacks DQ v && lacks BACKSLASH v && lacks CR v
  && no_glob v && negb (leading_dash (fields v)).

(** The entries whose name starts with a prefix, and the line that the
    script appends for an entry. *)
Definition selected (prefix : text) (e : environment) : environment :=
  List.filter (fun nv => starts_with prefix (fst nv)) e.

Definition normalised (v : text) : text := unwords (fields v).

Definition output_for (nv : text * text) : text :=
  property_line (fst nv) (normalised (snd nv)) ++ [LF].

(** The variables the generator is meant to select: those whose name
    starts with one of the prefixes of [ENV_VARS]. *)
Definition whitelisted (name : text) : bool :=
  existsb (fun prefix => starts_with prefix name) (fields ENV_VARS).

(** ** Notions used in the statements, and sample inputs *)

(** An entry document that already refers to the script and holds the
    marker once. *)
Definition html_with_reference : text :=
  txt "<head>" ++ script_tag ++ ENV_marker ++ txt "</head>".

Definition html_with_marker : text :=
  txt "<html><head><!-- ENV --></head><body></body></html>".

Definition html_with_two_markers : text :=
  txt "<head><!-- ENV --></head><body><!-- ENV --></body>".

(** Build time says PROD, the generated script says QAS. *)
Definition ime_prod : ImportMetaEnv := {[ txt "STAGE" := JString (txt "PROD") ]}.

Definition window_qas : Window :=
  {| _env_ := Some {[ txt "STAGE" := txt "QAS" ]} |}.

(** A window in which the generated script has not run. *)
Definition window_without_env : Window := {| _env_ := None |}.

Definition ime_empty_stage : ImportMetaEnv := {[ txt "STAGE" := JString [] ]}.

Definition ime_false_stage : ImportMetaEnv := {[ txt "STAGE" := JBool false ]}.

Definition env_qas : environment :=
  [(txt "STAGE", txt "QAS"); (txt "API_URL", txt "http://example.qas.com/api")].

(** A file system that refuses every operation, as one mounted read-only
    without the config directory does. *)
Definition every_operation_fails : nat -> bool := fun _ => true.

(** A world in which front.env.js is left over from an earlier start. *)
Definition world_with_stale_file : world :=
  {| files := {[ front_env_js := txt "window._env_ = { STAGE: 'OLD' };" ]};
     trace := [] |}.

Definition line_of (nv : text * text) : text := fst nv ++ "="%char :: snd nv.

(** The environments for which the generated script is shown to load: one
    entry per name, every entry well formed, and every selected value
    plain. *)
Definition plain_environment (e : environment) : Prop :=
  NoDup (map fst e)
  /\ forallb well_formed_entry e = true
  /\ forallb (fun nv => implb (whitelisted (fst nv)) (plain_value (snd nv))) e
     = true.

Definition selected_entries (e : environment) : environment :=
  selected (txt "STAGE") e ++ selected (txt "API_URL") e.

(** The characters a string literal can hold as they are. *)
Definition literal_text (s : text) : bool :=
  lacks DQ s && lacks LF s && lacks CR s && lacks BACKSLASH s.

Definition tokens_for (kv : text * text) : list token :=
  [TIdent (fst kv); TColon; TString (snd kv); TComma].

Definition output_line (kv : text * text) : text :=
  property_line (fst kv) (snd kv) ++ [LF].

Definition define_property (o : gmap text text) (kv : text * text)
  : gmap text text :=
  <[fst kv := snd kv]> o.

(** The properties that the script defines, in the order of the file. *)
Definition object_entries (e : environment) : list (text * text) :=
  map (fun nv => (fst nv, normalised (snd nv))) (selected_entries e).

(** Entries that give each key one value only. *)
Definition functional (kvs : list (text * text)) : Prop :=
  forall k v v', In (k, v) kvs -> In (k, v') kvs -> v = v'.


(** A variable outside the whitelist whose value has a second line that
    looks like an entry. *)
Definition env_two_lines : environment :=
  [(txt "FOO", txt "x" ++ [LF] ++ txt "STAGE_B=1")].

(** ** The module constants.ts as a whole *)

(** Evaluating the module runs its two declarations in order; the first
    one that throws ends the evaluation, and nothing is exported. *)
Inductive module_result :=
| Exported (stage api_url : js_value)
| ModuleThrows.

Definition constants_ts (ime : ImportMetaEnv) (w : Window) : module_result :=
  match STAGE ime w with
  | ThrowTypeError => ModuleThrows
  | Normal stage =>
      match API_URL ime w with
      | ThrowTypeError => ModuleThrows
      | Normal api_url => Exported stage api_url
      end
  end.

(** The window once a script that loads as [o] has run. *)
Definition window_with (o : gmap text text) : Window := {| _env_ := Some o |}.

(** A file system that refuses the operations listed in [ks] only. *)
Definition fails_at (ks : list nat) : nat -> bool :=
  fun k => existsb (Nat.eqb k) ks.

(** The file [path] holds [header] followed by [outs], and the event
    number [k0] is past. *)
Definition holds_after (k0 : nat) (path header : text) (outs : list text)
    (w : world) : Prop :=
  k0 <= length (trace w) /\ holds path header outs w.

(** A file system on which the third event of a run, the opening of
    front.env.js for [>], fails and nothing else does. *)
Definition truncation_fails : nat -> bool := fails_at [2].

(** A file system on which one operation fails: the opening of
    front.env.js for [>] in a second run on [env_qas], which is event 14
    when the first run started with an empty trace and took events 0
    to 11. *)
Definition second_truncation_fails : nat -> bool := fails_at [14].

(** A selected value whose double quote ends the string literal early and
    goes on with a property of its own. *)
Definition env_with_injection : environment :=
  [(txt "STAGE", txt "x" ++ [DQ] ++ txt ", ENV_TEST: " ++ [DQ] ++ txt "y")].

(** Sample inputs. *)
Definition env_with_home : environment :=
  [(txt "HOME", txt "/root"); (txt "STAGE", txt "QAS");
   (txt "API_URL", txt "http://example.qas.com/api")].


Definition env_stage_suffix : environment :=
  [(txt "STAGE_NAME", txt "blue  green"); (txt "ENV_TEST", txt "x")].

(** ** Lemmas on text *)

Lemma starts_with_app p t : starts_with p (p ++ t) = true.
Proof.
  induction p as [|a p IH]; simpl; [reflexivity|].
  rewrite Ascii.eqb_refl. exact IH.
Qed.

Lemma starts_with_split p s :
  starts_with p s = true -> s = p ++ drop (length p) s.
Proof.
  revert s. induction p as [|a p IH]; intros s H; simpl in *.
  - reflexivity.
  - destruct s as [|b s]; [discriminate|].
    apply andb_true_iff in H as [Hab Hp].
    apply Ascii.eqb_eq in Hab. subst b. simpl. f_equal. apply IH, Hp.
Qed.

Lemma agrees_sym a b : agrees a b = agrees b a.
Proof.
  revert b. induction a as [|x a IH]; intros [|y b]; simpl; try reflexivity.
  rewrite IH. f_equal. apply Ascii.eqb_sym.
Qed.

Lemma disagree_starts_with q x t :
  agrees q x = false -> starts_with q (x ++ t) = false.
Proof.
  revert x. induction q as [|a q IH]; intros [|b x] H; simpl in *;
    try discriminate.
  apply andb_false_iff in H as [H|H].
  - rewrite H. reflexivity.
  - rewrite (IH _ H). apply andb_false_r.
Qed.

Lemma disagree_starts_with' q x t :
  agrees x q = false -> starts_with q (x ++ t) = false.
Proof. rewrite agrees_sym. apply disagree_starts_with. Qed.

Lemma no_overlap_cons c q x :
  no_overlap (c :: q) x = true ->
  agrees (c :: q) x = false /\ no_overlap q x = true.
Proof.
  cbn [no_overlap]. intros H. apply andb_true_iff in H as [H1 H2].
  apply negb_true_iff in H1. split; assumption.
Qed.

(** No copy of [p] starts inside [u] when [u] and [p] do not overlap. *)
Lemma occurrences_skip p u t :
  no_overlap u p = true -> occurrences p (u ++ t) = occurrences p t.
Proof.
  induction u as [|c u IH]; intros H; [reflexivity|].
  apply no_overlap_cons in H as [H1 H2].
  change ((c :: u) ++ t) with (c :: (u ++ t)). cbn [occurrences].
  change (c :: (u ++ t)) with ((c :: u) ++ t).
  rewrite (disagree_starts_with' _ _ _ H1). simpl. apply IH, H2.
Qed.

Lemma get_substitution_plain matched before after template :
  forallb (fun c => negb (Ascii.eqb c "$"%char)) template = true ->
  get_substitution matched before after template = template.
Proof.
  induction template as [|c t IH]; intros H; [reflexivity|].
  cbn [forallb] in H. apply andb_true_iff in H as [Hc Ht].
  apply negb_true_iff, Ascii.eqb_neq in Hc.
  specialize (IH Ht).
  cbn [get_substitution]. rewrite IH.
  destruct c as [[] [] [] [] [] [] [] []]; try reflexivity.
  congruence.
Qed.

(** ** Replacing the first occurrence *)

Section Replace.

Variables P R : text.

Hypothesis R_plain :
  forallb (fun c => negb (Ascii.eqb c "$"%char)) R = true.

Hypothesis P_not_empty : P <> [].

Lemma starts_with_nil : starts_with P [] = false.
Proof using P_not_empty. destruct P; [congruence|reflexivity]. Qed.

Lemma js_replace_nil : js_replace P R [] = [].
Proof using P_not_empty.
  unfold js_replace. cbn [index_of]. rewrite starts_with_nil. reflexivity.
Qed.

Lemma js_replace_match s :
  starts_with P s = true -> js_replace P R s = R ++ drop (length P) s.
Proof using R_plain.
  intros H. unfold js_replace.
  destruct s as [|c s]; cbn [index_of]; rewrite H; cbn [take app Nat.add];
    rewrite get_substitution_plain by exact R_plain; reflexivity.
Qed.

Lemma js_replace_step c s :
  starts_with P (c :: s) = false ->
  js_replace P R (c :: s) = c :: js_replace P R s.
Proof using R_plain.
  intros H. unfold js_replace. cbn [index_of]. rewrite H.
  destruct (index_of P s) as [i|]; cbn [option_map]; [|reflexivity].
  cbn [take drop Nat.add app].
  rewrite !get_substitution_plain by exact R_plain. reflexivity.
Qed.

(** Without an occurrence the text is returned unchanged. *)
Lemma js_replace_absent s : occurrences P s = 0 -> js_replace P R s = s.
Proof using R_plain P_not_empty.
  induction s as [|c s IH]; intros H.
  - apply js_replace_nil.
  - cbn [occurrences] in H.
    destruct (starts_with P (c :: s)) eqn:E; [discriminate|].
    rewrite js_replace_step by exact E. f_equal. apply IH. exact H.
Qed.

(** A text that overlaps neither the pattern nor the replacement starts
    at the same places before and after the replacement. *)
Lemma starts_with_js_replace q s :
  no_overlap q P = true -> no_overlap q R = true ->
  starts_with q (js_replace P R s) = starts_with q s.
Proof using R_plain P_not_empty.
  revert q. induction s as [|c s IH]; intros q HP HR.
  - rewrite js_replace_nil. reflexivity.
  - destruct (starts_with P (c :: s)) eqn:E.
    + rewrite js_replace_match by exact E.
      rewrite (starts_with_split _ _ E) at 2.
      destruct q as [|a q]; [reflexivity|].
      apply no_overlap_cons in HP as [HP _].
      apply no_overlap_cons in HR as [HR _].
      rewrite (disagree_starts_with _ _ _ HP).
      apply (disagree_starts_with _ _ _ HR).
    + rewrite js_replace_step by exact E.
      destruct q as [|a q]; [reflexivity|].
      apply no_overlap_cons in HP as [_ HP].
      apply no_overlap_cons in HR as [_ HR].
      cbn [starts_with]. rewrite (IH q HP HR). reflexivity.
Qed.

Lemma starts_with_cons_js_replace q c s :
  no_overlap (tail q) P = true -> no_overlap (tail q) R = true ->
  starts_with q (c :: js_replace P R s) = starts_with q (c :: s).
Proof using R_plain P_not_empty.
  intros HP HR. destruct q as [|a q]; [reflexivity|].
  cbn [starts_with]. cbn [tail] in HP, HR.
  rewrite (starts_with_js_replace q s HP HR). reflexivity.
Qed.

Lemma occurrences_match x t :
  x <> [] -> no_overlap (tail x) x = true ->
  occurrences x (x ++ t) = S (occurrences x t).
Proof.
  intros Hx H. destruct x as [|a x]; [congruence|].
  change ((a :: x) ++ t) with (a :: (x ++ t)).
  cbn [occurrences].
  change (a :: (x ++ t)) with ((a :: x) ++ t).
  rewrite starts_with_app. cbn [tail] in H.
  rewrite (occurrences_skip _ _ _ H). reflexivity.
Qed.

Hypothesis P_self : no_overlap (tail P) P = true.
Hypothesis P_before_R : no_overlap (tail P) R = true.
Hypothesis P_inside_R : no_overlap R P = true.

(** The replacement removes exactly one occurrence of the pattern. *)
Lemma occurrences_pattern_js_replace s :
  occurrences P (js_replace P R s) = pred (occurrences P s).
Proof using R_plain P_not_empty P_self P_before_R P_inside_R.
  induction s as [|c s IH].
  - rewrite js_replace_nil. cbn [occurrences]. rewrite starts_with_nil.
    reflexivity.
  - destruct (starts_with P (c :: s)) eqn:E.
    + rewrite js_replace_match by exact E.
      rewrite (starts_with_split _ _ E) at 2.
      rewrite occurrences_match by assumption.
      rewrite occurrences_skip by exact P_inside_R. reflexivity.
    + rewrite js_replace_step by exact E.
      cbn [occurrences].
      rewrite starts_with_cons_js_replace by assumption.
      rewrite E, IH. reflexivity.
Qed.

Hypothesis R_not_empty : R <> [].
Hypothesis R_self : no_overlap (tail R) R = true.
Hypothesis R_before_P : no_overlap (tail R) P = true.
Hypothesis R_inside_P : no_overlap P R = true.

(** When the pattern occurs, the replacement adds exactly one copy of the
    replacement text. *)
Lemma occurrences_replacement_js_replace s :
  0 < occurrences P s ->
  occurrences R (js_replace P R s) = S (occurrences R s).
Proof using R_plain P_not_empty R_not_empty R_self R_before_P R_inside_P.
  induction s as [|c s IH]; intros H.
  - cbn [occurrences] in H. rewrite starts_with_nil in H. lia.
  - destruct (starts_with P (c :: s)) eqn:E.
    + rewrite js_replace_match by exact E.
      rewrite (starts_with_split _ _ E) at 2.
      rewrite occurrences_match by assumption.
      rewrite (occurrences_skip R P) by exact R_inside_P. reflexivity.
    + rewrite js_replace_step by exact E.
      cbn [occurrences] in H |- *. rewrite E in H.
      rewrite starts_with_cons_js_replace by assumption.
      rewrite IH by exact H. lia.
Qed.

(** The occurrence that is replaced is the first one, and every other
    occurrence lies in the text after it, which is kept. *)
Lemma js_replace_first s :
  0 < occurrences P s ->
  exists before after,
    s = before ++ P ++ after
    /\ index_of P s = Some (length before)
    /\ js_replace P R s = before ++ R ++ after
    /\ occurrences P after = pred (occurrences P s).
Proof using R_plain P_not_empty P_self.
  induction s as [|c s IH]; intros H.
  - cbn [occurrences] in H. rewrite starts_with_nil in H. lia.
  - destruct (starts_with P (c :: s)) eqn:E.
    + exists [], (drop (length P) (c :: s)).
      split; [exact (starts_with_split _ _ E)|].
      split; [cbn [index_of]; rewrite E; reflexivity|].
      split; [apply js_replace_match; exact E|].
      rewrite (starts_with_split _ _ E) at 2.
      rewrite occurrences_match by assumption. reflexivity.
    + cbn [occurrences] in H. rewrite E in H.
      destruct (IH H) as (b & a & Hs & Hi & Hr & Ho).
      exists (c :: b), a.
      split; [rewrite Hs at 1; reflexivity|].
      split; [cbn [index_of]; rewrite E, Hi; reflexivity|].
      split; [rewrite js_replace_step by exact E; rewrite Hr; reflexivity|].
      cbn [occurrences]. rewrite E. exact Ho.
Qed.

End Replace.

(** ** The transform on index.html *)

Lemma script_tag_plain :
  forallb (fun c => negb (Ascii.eqb c "$"%char)) script_tag = true.
Proof. reflexivity. Qed.

Lemma ENV_marker_not_empty : ENV_marker <> [].
Proof. discriminate. Qed.

Lemma script_tag_not_empty : script_tag <> [].
Proof. discriminate. Qed.

(** The marker and the script tag overlap neither themselves nor each
    other: both start with the only [<] they can share with a neighbour. *)
Lemma ENV_marker_self : no_overlap (tail ENV_marker) ENV_marker = true.
Proof. reflexivity. Qed.

Lemma ENV_marker_before_script_tag :
  no_overlap (tail ENV_marker) script_tag = true.
Proof. reflexivity. Qed.

Lemma ENV_marker_inside_script_tag : no_overlap script_tag ENV_marker = true.
Proof. reflexivity. Qed.

Lemma script_tag_self : no_overlap (tail script_tag) script_tag = true.
Proof. reflexivity. Qed.

Lemma script_tag_before_ENV_marker :
  no_overlap (tail script_tag) ENV_marker = true.
Proof. reflexivity. Qed.

Lemma script_tag_inside_ENV_marker : no_overlap ENV_marker script_tag = true.
Proof. reflexivity. Qed.

Lemma transform_removes_one_marker html :
  occurrences ENV_marker (transformIndexHtml html)
  = pred (occurrences ENV_marker html).
Proof.
  apply occurrences_pattern_js_replace.
  - exact script_tag_plain.
  - exact ENV_marker_not_empty.
  - exact ENV_marker_self.
  - exact ENV_marker_before_script_tag.
  - exact ENV_marker_inside_script_tag.
Qed.

Lemma transform_adds_one_script_tag html :
  0 < occurrences ENV_marker html ->
  occurrences script_tag (transformIndexHtml html)
  = S (occurrences script_tag html).
Proof.
  apply occurrences_replacement_js_replace.
  - exact script_tag_plain.
  - exact ENV_marker_not_empty.
  - exact script_tag_not_empty.
  - exact script_tag_self.
  - exact script_tag_before_ENV_marker.
  - exact script_tag_inside_ENV_marker.
Qed.

(** C4, as stated, fails: [html_with_reference] holds the marker exactly
    once, and the output of the transform holds the script reference
    twice. *)
Lemma transform_two_references :
  occurrences ENV_marker html_with_reference = 1
  /\ transformIndexHtml html_with_reference
     = txt "<head>" ++ script_tag ++ script_tag ++ txt "</head>"
  /\ occurrences script_tag (transformIndexHtml html_with_reference) = 2.
Proof. repeat split; vm_compute; reflexivity. Qed.

(** C4, amended: for every HTML text that holds the marker exactly once,
    the output of the transform holds the marker nowhere and holds one
    script reference to ./config/front.env.js more than the input did;
    exactly one when the input held none. *)
Theorem transform_marker_once html :
  occurrences ENV_marker html = 1 ->
  occurrences ENV_marker (transformIndexHtml html) = 0
  /\ occurrences script_tag (transformIndexHtml html)
     = S (occurrences script_tag html)
  /\ (occurrences script_tag html = 0 ->
      occurrences script_tag (transformIndexHtml html) = 1).
Proof.
  intros H.
  assert (Hs : occurrences script_tag (transformIndexHtml html)
               = S (occurrences script_tag html))
    by (apply transform_adds_one_script_tag; lia).
  split; [rewrite transform_removes_one_marker, H; reflexivity|].
  split; [exact Hs|]. intros H0. rewrite Hs, H0. reflexivity.
Qed.

Lemma transform_marker_once_witness :
  occurrences ENV_marker html_with_marker = 1
  /\ occurrences ENV_marker (transformIndexHtml html_with_marker) = 0
  /\ occurrences script_tag (transformIndexHtml html_with_marker) = 1.
Proof.
  assert (H : occurrences ENV_marker html_with_marker = 1)
    by (vm_compute; reflexivity).
  destruct (transform_marker_once html_with_marker H) as (H0 & _ & H1).
  split; [exact H|]. split; [exact H0|].
  apply H1. vm_compute. reflexivity.
Defined.

(** C7: an HTML text without the marker is returned unchanged; the
    transform is a total function, so nothing is thrown. *)
Theorem transform_marker_absent html :
  occurrences ENV_marker html = 0 -> transformIndexHtml html = html.
Proof.
  apply js_replace_absent.
  - exact script_tag_plain.
  - exact ENV_marker_not_empty.
Qed.

Lemma transform_marker_absent_witness :
  occurrences ENV_marker (txt "<html><!-- env --></html>") = 0
  /\ transformIndexHtml (txt "<html><!-- env --></html>")
     = txt "<html><!-- env --></html>".
Proof.
  split; [vm_compute; reflexivity|].
  apply transform_marker_absent. vm_compute. reflexivity.
Defined.

(** C10: in an HTML text that holds the marker more than once, the
    transform replaces the first occurrence only: the text before it and
    the text after it are kept, and the text after it holds every other
    occurrence, so the output has one marker less than the input. *)
Theorem transform_first_marker_only html :
  1 < occurrences ENV_marker html ->
  exists before after,
    html = before ++ ENV_marker ++ after
    /\ index_of ENV_marker html = Some (length before)
    /\ transformIndexHtml html = before ++ script_tag ++ after
    /\ occurrences ENV_marker after = occurrences ENV_marker html - 1
    /\ occurrences ENV_marker (transformIndexHtml html)
       = occurrences ENV_marker html - 1.
Proof.
  intros H.
  destruct (js_replace_first ENV_marker script_tag script_tag_plain
              ENV_marker_not_empty ENV_marker_self html)
    as (b & a & Hs & Hi & Hr & Ho); [lia|].
  exists b, a. repeat split; try assumption.
  - rewrite Ho. lia.
  - rewrite transform_removes_one_marker. lia.
Qed.

Lemma transform_first_marker_only_witness :
  1 < occurrences ENV_marker html_with_two_markers
  /\ exists before after,
       html_with_two_markers = before ++ ENV_marker ++ after
       /\ index_of ENV_marker html_with_two_markers = Some (length before)
       /\ transformIndexHtml html_with_two_markers
          = before ++ script_tag ++ after
       /\ occurrences ENV_marker after
          = occurrences ENV_marker html_with_two_markers - 1
       /\ occurrences ENV_marker (transformIndexHtml html_with_two_markers)
          = occurrences ENV_marker html_with_two_markers - 1.
Proof.
  assert (H : 1 < occurrences ENV_marker html_with_two_markers)
    by (vm_compute; lia).
  split; [exact H|]. exact (transform_first_marker_only _ H).
Defined.

Example transform_two_markers :
  transformIndexHtml html_with_two_markers
  = txt "<head>" ++ script_tag ++ txt "</head><body><!-- ENV --></body>".
Proof. vm_compute. reflexivity. Qed.

(** ** The accessor of constants.ts *)

Lemma accessor_unfold k ime w :
  accessor k ime w
  = nullish_coalesce (get_property ime (key_name k))
                     (window_env_member w (key_name k)).
Proof. destruct k; reflexivity. Qed.

Lemma nullish_coalesce_provided v r :
  provided v = true -> nullish_coalesce v r = Normal v.
Proof. destruct v; simpl; intros H; congruence. Qed.

Lemma nullish_coalesce_missing v r :
  provided v = false -> nullish_coalesce v r = r.
Proof. destruct v; simpl; intros H; congruence. Qed.

(** C3: for every configuration key, the accessor returns the build-time
    value when one is provided, whatever the window holds, and otherwise
    it is the reading of that key from [window._env_]: the entry of the
    runtime configuration object for the key. *)
Theorem accessor_precedence (k : config_key) (ime : ImportMetaEnv) (w : Window) :
  (provided (get_property ime (key_name k)) = true ->
   accessor k ime w = Normal (get_property ime (key_name k)))
  /\ (provided (get_property ime (key_name k)) = false ->
      accessor k ime w = window_env_member w (key_name k)
      /\ forall o, _env_ w = Some o ->
         accessor k ime w = Normal (entry o (key_name k))).
Proof.
  rewrite accessor_unfold. split.
  - apply nullish_coalesce_provided.
  - intros H. rewrite nullish_coalesce_missing by exact H.
    split; [reflexivity|].
    intros o Ho. unfold window_env_member. rewrite Ho. reflexivity.
Qed.

Lemma accessor_precedence_witness :
  accessor KeySTAGE ime_prod window_qas = Normal (JString (txt "PROD"))
  /\ accessor KeySTAGE ∅ window_qas = Normal (JString (txt "QAS")).
Proof.
  split.
  - apply (proj1 (accessor_precedence KeySTAGE ime_prod window_qas)).
    vm_compute. reflexivity.
  - refine (eq_trans
              (proj2 (proj2 (accessor_precedence KeySTAGE ∅ window_qas) _)
                 _ eq_refl) _);
      vm_compute; reflexivity.
Defined.

(** C6, as stated, fails: with no build-time value and no runtime
    configuration object, evaluating the accessor throws. *)
Lemma accessor_throws_without_object :
  get_property ∅ (key_name KeySTAGE) = JUndefined
  /\ _env_ window_without_env = None
  /\ accessor KeySTAGE ∅ window_without_env = ThrowTypeError.
Proof. repeat split. Qed.

(** C6, amended: for every configuration key for which the build-time
    source provides no value, the accessor yields [undefined] without an
    error when the runtime configuration object is defined and has no entry
    for the key; when the object itself is not defined, reading the key
    from it throws a TypeError. *)
Theorem accessor_missing_key (k : config_key) (ime : ImportMetaEnv) (w : Window) :
  provided (get_property ime (key_name k)) = false ->
  (forall o, _env_ w = Some o -> o !! key_name k = None ->
   accessor k ime w = Normal JUndefined)
  /\ (_env_ w = None -> accessor k ime w = ThrowTypeError).
Proof.
  intros H. rewrite accessor_unfold, nullish_coalesce_missing by exact H.
  unfold window_env_member, entry. split.
  - intros o Ho Hk. rewrite Ho, Hk. reflexivity.
  - intros Ho. rewrite Ho. reflexivity.
Qed.

Lemma accessor_missing_key_witness :
  provided (get_property ∅ (key_name KeyAPI_URL)) = false
  /\ accessor KeyAPI_URL ∅ window_qas = Normal JUndefined
  /\ accessor KeyAPI_URL ∅ window_without_env = ThrowTypeError.
Proof.
  assert (H : provided (get_property ∅ (key_name KeyAPI_URL)) = false)
    by reflexivity.
  split; [exact H|]. split.
  - eapply (proj1 (accessor_missing_key KeyAPI_URL ∅ window_qas H));
      vm_compute; reflexivity.
  - apply (proj2 (accessor_missing_key KeyAPI_URL ∅ window_without_env H)).
    reflexivity.
Defined.

(** C9: a build-time value that is the empty string is returned as it is,
    and so is every other falsy value except [null] and [undefined],
    whatever the window holds; the window has a say only when the
    build-time value is [null] or [undefined]. *)
Theorem accessor_fallback_only_nullish (k : config_key) (ime : ImportMetaEnv) :
  (get_property ime (key_name k) = JString [] ->
   forall w, accessor k ime w = Normal (JString []))
  /\ (forall v, get_property ime (key_name k) = v -> falsy v = true ->
      v <> JUndefined -> v <> JNull ->
      forall w, accessor k ime w = Normal v)
  /\ (forall w w', accessor k ime w <> accessor k ime w' ->
      get_property ime (key_name k) = JUndefined
      \/ get_property ime (key_name k) = JNull).
Proof.
  repeat split.
  - intros H w. rewrite accessor_unfold, H. reflexivity.
  - intros v H _ Hu Hn w. rewrite accessor_unfold, H.
    destruct v; try reflexivity; congruence.
  - intros w w' H. rewrite !accessor_unfold in H.
    destruct (get_property ime (key_name k)); simpl in H; auto; congruence.
Qed.

Lemma accessor_fallback_only_nullish_witness :
  accessor KeySTAGE ime_empty_stage window_qas = Normal (JString [])
  /\ accessor KeySTAGE ime_empty_stage window_without_env = Normal (JString [])
  /\ accessor KeySTAGE ime_false_stage window_qas = Normal (JBool false)
  /\ (get_property ∅ (key_name KeySTAGE) = JUndefined
      \/ get_property ∅ (key_name KeySTAGE) = JNull).
Proof.
  destruct (accessor_fallback_only_nullish KeySTAGE ime_empty_stage)
    as (He & _ & _).
  destruct (accessor_fallback_only_nullish KeySTAGE ime_false_stage)
    as (_ & Hf & _).
  destruct (accessor_fallback_only_nullish KeySTAGE ∅) as (_ & _ & Hn).
  split; [apply He; vm_compute; reflexivity|].
  split; [apply He; vm_compute; reflexivity|].
  split.
  - apply (Hf (JBool false)); try discriminate; vm_compute; reflexivity.
  - apply (Hn window_qas window_without_env). vm_compute. discriminate.
Defined.

(** ** Rules for commands *)

Lemma triple_bind {A B} (P : world -> Prop) (c : sh A) (Q : A -> world -> Prop)
    (k : A -> sh B) (R : B -> world -> Prop) :
  triple P c Q -> (forall a, triple (Q a) (k a) R) -> triple P (c ≫= k) R.
Proof.
  intros Hc Hk w HP. destruct (Hc w HP) as (a & w1 & E & HQ).
  destruct (Hk a w1 HQ) as (b & w2 & E2 & HR).
  exists b, w2. split; [|exact HR].
  unfold mbind, sh_bind. rewrite E. exact E2.
Qed.

Lemma triple_weaken {A} (P P' : world -> Prop) (c : sh A)
    (Q Q' : A -> world -> Prop) :
  triple P c Q -> (forall w, P' w -> P w) -> (forall a w, Q a w -> Q' a w) ->
  triple P' c Q'.
Proof.
  intros Hc HP HQ w H. destruct (Hc w (HP w H)) as (a & w' & E & Ha).
  exists a, w'. split; [exact E|]. apply HQ, Ha.
Qed.

Lemma triple_lift {A} (P : world -> Prop) (o : option A) (a : A) :
  o = Some a -> triple P (lift o) (fun b w => b = a /\ P w).
Proof. intros -> w H. exists a, w. split; [reflexivity|]. split; [reflexivity|exact H]. Qed.

(** A loop whose body has a result for every word: the invariant is
    indexed by the results obtained so far. *)
Lemma triple_for {B} (I : list B -> world -> Prop) (g : text -> option B)
    (body : text -> sh nat) (words : list text) :
  (forall x y acc, g x = Some y ->
     triple (I acc) (body x) (fun _ => I (acc ++ [y]))) ->
  forall ys acc, traverse g words = Some ys ->
  triple (I acc) (sh_for words body) (fun _ => I (acc ++ ys)).
Proof.
  intros Hbody. induction words as [|x words IH]; intros ys acc T.
  - injection T as T. subst ys. rewrite app_nil_r. intros w H. exists 0, w.
    split; [reflexivity|exact H].
  - cbn [traverse] in T.
    destruct (g x) as [y|] eqn:Ex; [|discriminate].
    destruct (traverse g words) as [ys'|]; [|discriminate].
    injection T as T. subst ys. cbn [sh_for].
    eapply triple_bind; [apply (Hbody x y acc Ex)|].
    intros s. eapply triple_weaken; [apply (IH ys' (acc ++ [y]) eq_refl)|auto|].
    intros s' w H. rewrite <- app_assoc in H. exact H.
Qed.

(** *** Nothing but the last command starts a program *)

Lemma quiet_since_refl w : quiet_since w w.
Proof. exists []. rewrite app_nil_r. split; reflexivity. Qed.

Lemma quiet_since_log w0 w ev :
  is_Run ev = false -> quiet_since w0 w -> quiet_since w0 (log ev w).
Proof.
  intros Hev (evs & E & Q). exists (evs ++ [ev]). cbn [log trace].
  rewrite E, app_assoc. split; [reflexivity|].
  rewrite existsb_app, Q. cbn [existsb]. rewrite Hev. reflexivity.
Qed.

Lemma quiet_since_redirect w0 w fault mode path out :
  quiet_since w0 w -> quiet_since w0 (snd (redirect fault mode path out w)).
Proof.
  intros H. unfold redirect.
  destruct (is_event_ok fault w); [destruct (is_event_ok fault _)|];
    cbn [snd]; repeat apply quiet_since_log; try reflexivity.
  all: destruct H as (evs & E & Q); exists evs; split; assumption.
Qed.

Lemma echo_stdout_quiet w0 operands out :
  echo operands = Some out ->
  triple (quiet_since w0) (echo_stdout operands) (fun _ => quiet_since w0).
Proof.
  intros E w H. unfold echo_stdout. rewrite E. eexists _, _.
  split; [reflexivity|]. apply quiet_since_log; [reflexivity|exact H].
Qed.

Lemma mkdir_p_quiet w0 fault path :
  triple (quiet_since w0) (mkdir_p fault path) (fun _ => quiet_since w0).
Proof.
  intros w H. unfold mkdir_p.
  destruct (is_event_ok fault w); eexists _, _; (split; [reflexivity|]);
    (apply quiet_since_log; [reflexivity|exact H]).
Qed.

Lemma echo_to_quiet w0 fault mode path operands out :
  echo operands = Some out ->
  triple (quiet_since w0) (echo_to fault mode path operands)
         (fun _ => quiet_since w0).
Proof.
  intros E w H. unfold echo_to. rewrite E.
  destruct (redirect fault mode path out w) as [s w'] eqn:R.
  exists s, w'. split; [reflexivity|].
  change w' with (snd (s, w')). rewrite <- R.
  apply quiet_since_redirect, H.
Qed.

Lemma loop_body_quiet w0 fault e var out :
  match eval_echo e var with
  | Some value => echo [property_line var value]
  | None => None
  end = Some out ->
  triple (quiet_since w0)
         (value ← lift (eval_echo e var);
          echo_to fault Append front_env_js [property_line var value])
         (fun _ => quiet_since w0).
Proof.
  intros H. destruct (eval_echo e var) as [value|] eqn:E; [|discriminate].
  eapply triple_bind; [apply triple_lift; reflexivity|].
  intros a. eapply triple_weaken with (P := fun w => a = value /\ quiet_since w0 w)
    (Q := fun _ w => quiet_since w0 w); [|auto|auto].
  intros w [-> Hw]. eapply echo_to_quiet; eassumption.
Qed.

Lemma inner_loop_quiet w0 fault e vars outs :
  traverse (fun var =>
              match eval_echo e var with
              | Some value => echo [property_line var value]
              | None => None
              end) vars = Some outs ->
  triple (quiet_since w0)
         (sh_for vars (fun var =>
            value ← lift (eval_echo e var);
            echo_to fault Append front_env_js [property_line var value]))
         (fun _ => quiet_since w0).
Proof.
  intros T.
  eapply triple_weaken;
    [eapply (triple_for (fun _ : list text => quiet_since w0)) with (acc := []);
       [|exact T] | auto | auto].
  intros x y acc. apply loop_body_quiet.
Qed.

Lemma outer_body_quiet w0 fault e prefix outs :
  loop_outputs e prefix = Some outs ->
  triple (quiet_since w0)
         (vars ← lift (loop_words e prefix);
          sh_for vars (fun var =>
            value ← lift (eval_echo e var);
            echo_to fault Append front_env_js [property_line var value]))
         (fun _ => quiet_since w0).
Proof.
  unfold loop_outputs. intros H.
  destruct (loop_words e prefix) as [vars|] eqn:E; [|discriminate].
  eapply triple_bind; [apply triple_lift; reflexivity|].
  intros a w [-> Hw]. eapply inner_loop_quiet; eassumption.
Qed.

Lemma nginx_runs w0 status argv :
  triple (quiet_since w0) (nginx status argv)
         (fun s w =>
            s = status
            /\ exists evs,
                 trace w = trace w0 ++ evs ++ [Run (txt "nginx" :: argv)]
                 /\ existsb is_Run evs = false).
Proof.
  intros w (evs & E & Q). eexists _, _. split; [reflexivity|].
  split; [reflexivity|]. exists evs. cbn [log trace].
  rewrite E, app_assoc. split; [reflexivity|exact Q].
Qed.

Lemma covered_outputs e :
  covered e = true ->
  exists outs, traverse (loop_outputs e) (fields ENV_VARS) = Some outs
    /\ front_env_js_content e
       = Some (txt "window._env_ = {" ++ [LF] ++ concat (concat outs)
                 ++ txt "};" ++ [LF]).
Proof.
  unfold covered, front_env_js_content.
  destruct (traverse (loop_outputs e) (fields ENV_VARS)) as [outs|];
    [|discriminate].
  intros _. exists outs. split; reflexivity.
Qed.

(** On a covered environment the script reaches its last command whatever
    the file system does, and that command is the first program started. *)
Lemma start_sh_runs_server fault status e w0 :
  covered e = true ->
  exists w' evs,
    start_sh fault status e w0 = Some (status, w')
    /\ trace w' = trace w0 ++ evs ++ [Run nginx_command]
    /\ existsb is_Run evs = false.
Proof.
  intros C. destruct (covered_outputs e C) as (outs & T & _).
  assert (H : triple (quiet_since w0) (start_sh fault status e)
                (fun s w =>
                   s = status
                   /\ exists evs,
                        trace w = trace w0 ++ evs ++ [Run nginx_command]
                        /\ existsb is_Run evs = false)).
  { unfold start_sh.
    eapply triple_bind; [eapply echo_stdout_quiet; reflexivity|]. intros ?.
    eapply triple_bind; [apply mkdir_p_quiet|]. intros ?.
    eapply triple_bind; [eapply echo_to_quiet; reflexivity|]. intros ?.
    eapply triple_bind with (Q := fun _ => quiet_since w0).
    { eapply triple_weaken;
        [eapply (triple_for (fun _ : list (list text) => quiet_since w0))
           with (acc := []); [|exact T] | auto | auto].
      intros x y acc. apply outer_body_quiet. }
    intros ?.
    eapply triple_bind; [eapply echo_to_quiet; reflexivity|]. intros ?.
    eapply triple_bind; [eapply echo_stdout_quiet; reflexivity|]. intros ?.
    apply nginx_runs. }
  destruct (H w0 (quiet_since_refl w0)) as (s & w' & E & -> & evs & Ht & Q).
  exists w', evs. repeat split; assumption.
Qed.

(** *** What the file holds when no operation fails *)

Section NoFault.

Variable fault : nat -> bool.

Hypothesis fault_never : forall k, fault k = false.

Lemma redirect_no_fault mode path out w :
  redirect fault mode path out w
  = (0, log (WriteFile path out true)
          (log (OpenFile path mode true)
             (set_files (appended path out (opened mode path (files w))) w))).
Proof using fault_never.
  unfold redirect, is_event_ok. rewrite !fault_never. reflexivity.
Qed.

Lemma echo_to_truncate path operands out (P : world -> Prop) :
  echo operands = Some out ->
  triple P (echo_to fault Truncate path operands)
         (fun _ => holds path out []).
Proof.
  intros E w _. unfold echo_to. rewrite E, redirect_no_fault.
  eexists _, _. split; [reflexivity|].
  unfold holds, appended, opened. cbn [log set_files files concat].
  rewrite lookup_insert_eq, app_nil_r. f_equal.
  rewrite lookup_insert_eq. reflexivity.
Qed.

Lemma echo_to_append path header acc operands out :
  echo operands = Some out ->
  triple (holds path header acc) (echo_to fault Append path operands)
         (fun _ => holds path header (acc ++ [out])).
Proof.
  intros E w H. unfold echo_to. rewrite E, redirect_no_fault.
  eexists _, _. split; [reflexivity|].
  unfold holds in *. unfold appended, opened. cbn [log set_files files].
  rewrite H, lookup_insert_eq, H. f_equal.
  rewrite concat_app. cbn [concat]. rewrite app_nil_r, app_assoc. reflexivity.
Qed.

Lemma echo_stdout_holds path header acc operands out :
  echo operands = Some out ->
  triple (holds path header acc) (echo_stdout operands)
         (fun _ => holds path header acc).
Proof.
  intros E w H. unfold echo_stdout. rewrite E. eexists _, _.
  split; [reflexivity|exact H].
Qed.

Lemma loop_body_holds path header acc e var out :
  match eval_echo e var with
  | Some value => echo [property_line var value]
  | None => None
  end = Some out ->
  triple (holds path header acc)
         (value ← lift (eval_echo e var);
          echo_to fault Append path [property_line var value])
         (fun _ => holds path header (acc ++ [out])).
Proof.
  intros H. destruct (eval_echo e var) as [value|] eqn:E; [|discriminate].
  eapply triple_bind; [apply triple_lift; reflexivity|].
  intros a w [-> Hw]. eapply echo_to_append; eassumption.
Qed.

Lemma outer_body_holds path header accs e prefix outs :
  loop_outputs e prefix = Some outs ->
  triple (holds path header (concat accs))
         (vars ← lift (loop_words e prefix);
          sh_for vars (fun var =>
            value ← lift (eval_echo e var);
            echo_to fault Append path [property_line var value]))
         (fun _ => holds path header (concat (accs ++ [outs]))).
Proof.
  unfold loop_outputs. intros H.
  destruct (loop_words e prefix) as [vars|] eqn:E; [|discriminate].
  eapply triple_bind; [apply triple_lift; reflexivity|].
  intros a w [-> Hw]. revert w Hw.
  eapply triple_weaken;
    [eapply (triple_for (fun acc => holds path header (concat accs ++ acc)))
       with (acc := []); [|exact H] | | ].
  - intros x y acc. rewrite app_assoc. apply loop_body_holds.
  - intros w Hw. rewrite app_nil_r. exact Hw.
  - intros s w Hw. rewrite concat_app. cbn [concat app] in *.
    rewrite app_nil_r. exact Hw.
Qed.

(** On a covered environment and without a failing operation, the script
    ends with the server's status and leaves in front.env.js the content
    computed from the environment alone. *)
Lemma start_sh_writes_file status e w0 content :
  front_env_js_content e = Some content ->
  exists w',
    start_sh fault status e w0 = Some (status, w')
    /\ files w' !! front_env_js = Some content.
Proof.
  intros Hc.
  assert (C : covered e = true) by (unfold covered; rewrite Hc; reflexivity).
  destruct (covered_outputs e C) as (outs & T & Hc').
  rewrite Hc in Hc'. injection Hc' as ->.
  set (header := txt "window._env_ = {" ++ [LF]).
  assert (H : triple (fun _ => True) (start_sh fault status e)
                (fun s w =>
                   s = status
                   /\ holds front_env_js header
                        (concat outs ++ [txt "};" ++ [LF]]) w)).
  { unfold start_sh.
    eapply triple_bind with (Q := fun _ _ => True);
      [intros w _; eexists _, _; split; [reflexivity|exact I]|]. intros ?.
    eapply triple_bind with (Q := fun _ _ => True);
      [intros w _; unfold mkdir_p; destruct (is_event_ok fault w);
       eexists _, _; (split; [reflexivity|exact I])|]. intros ?.
    eapply triple_bind;
      [apply (echo_to_truncate front_env_js _ header); reflexivity|].
    intros ?.
    eapply triple_bind
      with (Q := fun _ => holds front_env_js header (concat outs)).
    { eapply triple_weaken;
        [eapply (triple_for (fun accs => holds front_env_js header (concat accs)))
           with (acc := []); [|exact T] | auto | ].
      - intros x y acc. apply outer_body_holds.
      - intros s w Hw. exact Hw. }
    intros ?.
    eapply triple_bind; [eapply echo_to_append; reflexivity|]. intros ?.
    eapply triple_bind; [eapply echo_stdout_holds; reflexivity|]. intros ?.
    intros w Hw. eexists _, _. split; [reflexivity|].
    split; [reflexivity|exact Hw]. }
  destruct (H w0 I) as (s & w' & E & -> & Hh).
  exists w'. split; [exact E|].
  unfold holds in Hh. rewrite Hh. f_equal. unfold header.
  rewrite concat_app. cbn [concat]. rewrite app_nil_r, <- !app_assoc.
  reflexivity.
Qed.

End NoFault.

(** ** The startup sequence *)

(** C2, as stated, fails: every operation on the file system fails, yet the
    script goes on, starts the server and ends with the server's status,
    here 0; front.env.js does not exist. *)
Lemma start_sh_serves_after_failed_writes :
  exists w',
    start_sh every_operation_fails 0 env_qas empty_world = Some (0, w')
    /\ trace w'
       = [Stdout (txt "Configuring environment variables..." ++ [LF]);
          Mkdir config_dir false;
          OpenFile front_env_js Truncate false;
          OpenFile front_env_js Append false;
          OpenFile front_env_js Append false;
          OpenFile front_env_js Append false;
          Stdout (txt "Starting Nginx..." ++ [LF]);
          Run nginx_command]
    /\ files w' !! front_env_js = None.
Proof. eexists. repeat split; vm_compute; reflexivity. Qed.

(** C2, amended: when a write of the generated file fails, the script does
    not abort. On every covered environment and whatever operations fail,
    it goes on to its last command, which starts the server, and it ends
    with the server's exit status. *)
Theorem start_sh_ignores_failures fault status e w0 :
  covered e = true ->
  exists w',
    start_sh fault status e w0 = Some (status, w')
    /\ last (trace w') = Some (Run nginx_command).
Proof.
  intros C.
  destruct (start_sh_runs_server fault status e w0 C) as (w' & evs & E & T & _).
  exists w'. split; [exact E|].
  rewrite T, app_assoc. apply last_snoc.
Qed.

Lemma start_sh_ignores_failures_witness :
  covered env_qas = true
  /\ exists w',
       start_sh every_operation_fails 3 env_qas empty_world = Some (3, w')
       /\ last (trace w') = Some (Run nginx_command).
Proof.
  assert (C : covered env_qas = true) by (vm_compute; reflexivity).
  split; [exact C|].
  exact (start_sh_ignores_failures every_operation_fails 3 env_qas empty_world C).
Defined.

(** C5, as stated, fails: the file is emptied by the first redirection
    only. In a second run on the same environment in which the opening for
    [>] fails and nothing else does, the lines of the second run are
    appended to the file of the first run, and the two files differ. *)
Lemma start_sh_second_run_appends :
  exists w1 w2,
    start_sh second_truncation_fails 0 env_qas empty_world = Some (0, w1)
    /\ files w1 !! front_env_js
       = Some (txt "window._env_ = {" ++ [LF]
                 ++ txt "    STAGE: " ++ [DQ] ++ txt "QAS" ++ [DQ]
                 ++ txt "," ++ [LF]
                 ++ txt "    API_URL: " ++ [DQ]
                 ++ txt "http://example.qas.com/api" ++ [DQ]
                 ++ txt "," ++ [LF]
                 ++ txt "};" ++ [LF])
    /\ length (trace w1) = 12
    /\ start_sh second_truncation_fails 0 env_qas w1 = Some (0, w2)
    /\ files w2 !! front_env_js
       = Some (txt "window._env_ = {" ++ [LF]
                 ++ txt "    STAGE: " ++ [DQ] ++ txt "QAS" ++ [DQ]
                 ++ txt "," ++ [LF]
                 ++ txt "    API_URL: " ++ [DQ]
                 ++ txt "http://example.qas.com/api" ++ [DQ]
                 ++ txt "," ++ [LF]
                 ++ txt "};" ++ [LF]
                 ++ txt "    STAGE: " ++ [DQ] ++ txt "QAS" ++ [DQ]
                 ++ txt "," ++ [LF]
                 ++ txt "    API_URL: " ++ [DQ]
                 ++ txt "http://example.qas.com/api" ++ [DQ]
                 ++ txt "," ++ [LF]
                 ++ txt "};" ++ [LF])
    /\ files w2 !! front_env_js <> files w1 !! front_env_js.
Proof.
  eexists _, _. repeat split; try (vm_compute; reflexivity).
  vm_compute. discriminate.
Qed.

(** C5, amended: two runs on the same covered environment, in neither of
    which an operation fails, leave the same bytes in front.env.js, and
    after a run without a failing operation those bytes are computed from
    the environment alone: whatever the file held before the run is gone
    after it. *)
Theorem start_sh_idempotent e :
  covered e = true ->
  exists content,
    front_env_js_content e = Some content
    /\ (forall status w0, exists w1,
          start_sh no_fault status e w0 = Some (status, w1)
          /\ files w1 !! front_env_js = Some content)
    /\ (forall status1 status2 w0, exists w1 w2,
          start_sh no_fault status1 e w0 = Some (status1, w1)
          /\ start_sh no_fault status2 e w1 = Some (status2, w2)
          /\ files w2 !! front_env_js = files w1 !! front_env_js).
Proof.
  intros C. unfold covered in C.
  destruct (front_env_js_content e) as [content|] eqn:Hc; [|discriminate].
  exists content. split; [reflexivity|].
  assert (H : forall status w0, exists w1,
            start_sh no_fault status e w0 = Some (status, w1)
            /\ files w1 !! front_env_js = Some content).
  { intros status w0.
    apply (start_sh_writes_file no_fault (fun _ => eq_refl) status e w0 content Hc). }
  split; [exact H|].
  intros status1 status2 w0.
  destruct (H status1 w0) as (w1 & E1 & F1).
  destruct (H status2 w1) as (w2 & E2 & F2).
  exists w1, w2. repeat split; try assumption. congruence.
Qed.

Lemma start_sh_idempotent_witness :
  covered env_qas = true
  /\ exists w1 w2,
       start_sh no_fault 0 env_qas world_with_stale_file = Some (0, w1)
       /\ start_sh no_fault 0 env_qas w1 = Some (0, w2)
       /\ files w2 !! front_env_js = files w1 !! front_env_js.
Proof.
  assert (C : covered env_qas = true) by (vm_compute; reflexivity).
  split; [exact C|].
  destruct (start_sh_idempotent env_qas C) as (content & _ & _ & H).
  exact (H 0 0 world_with_stale_file).
Defined.

(** C8, as stated, fails: the file system refuses every operation from
    [mkdir] on, the server is started all the same, and front.env.js does
    not exist at that moment. *)
Lemma start_sh_serves_without_file :
  exists w',
    start_sh every_operation_fails 0 [] empty_world = Some (0, w')
    /\ last (trace w') = Some (Run nginx_command)
    /\ In (OpenFile front_env_js Truncate false) (trace w')
    /\ files w' !! front_env_js = None.
Proof.
  eexists. repeat split; try (vm_compute; reflexivity).
  vm_compute. auto 10.
Qed.

(** C8, amended: in every run on a covered environment, everything the
    script does to the file comes before the start of the server, which is
    the last event; and in a run without a failing operation the file then
    holds the generated content. *)
Theorem start_sh_file_before_server fault status e w0 :
  covered e = true ->
  exists w' evs,
    start_sh fault status e w0 = Some (status, w')
    /\ trace w' = trace w0 ++ evs ++ [Run nginx_command]
    /\ existsb is_Run evs = false
    /\ ((forall k, fault k = false) ->
        exists content,
          front_env_js_content e = Some content
          /\ files w' !! front_env_js = Some content).
Proof.
  intros C.
  destruct (start_sh_runs_server fault status e w0 C) as (w' & evs & E & T & Q).
  exists w', evs. repeat split; try assumption.
  intros Hok. unfold covered in C.
  destruct (front_env_js_content e) as [content|] eqn:Hc; [|discriminate].
  exists content. split; [reflexivity|].
  destruct (start_sh_writes_file fault Hok status e w0 content Hc)
    as (w1 & E1 & F1).
  congruence.
Qed.

Lemma start_sh_file_before_server_witness :
  covered env_qas = true
  /\ exists w' evs,
       start_sh no_fault 0 env_qas empty_world = Some (0, w')
       /\ trace w' = evs ++ [Run nginx_command]
       /\ existsb is_Run evs = false
       /\ exists content,
            front_env_js_content env_qas = Some content
            /\ files w' !! front_env_js = Some content.
Proof.
  assert (C : covered env_qas = true) by (vm_compute; reflexivity).
  split; [exact C|].
  destruct (start_sh_file_before_server no_fault 0 env_qas empty_world C)
    as (w' & evs & E & T & Q & F).
  exists w', evs. repeat split; try assumption.
  apply F. intros k. reflexivity.
Defined.

(** ** The text the pipeline produces *)

Lemma lacks_cons c d s :
  lacks c (d :: s) = true -> Ascii.eqb d c = false /\ lacks c s = true.
Proof.
  unfold lacks. cbn [forallb]. intros H.
  apply andb_true_iff in H as [H1 H2]. apply negb_true_iff in H1. auto.
Qed.

Lemma lacks_app c s t : lacks c (s ++ t) = lacks c s && lacks c t.
Proof. unfold lacks. apply forallb_app. Qed.

Lemma lines_line l rest :
  lacks LF l = true -> lines (l ++ LF :: rest) = l :: lines rest.
Proof.
  induction l as [|c l IH]; intros H.
  - reflexivity.
  - apply lacks_cons in H as [Hc Hl].
    change ((c :: l) ++ LF :: rest) with (c :: (l ++ LF :: rest)).
    cbn [lines]. rewrite Hc, (IH Hl). reflexivity.
Qed.

Lemma lines_unlines ls :
  forallb (lacks LF) ls = true -> lines (unlines ls) = ls.
Proof.
  induction ls as [|l ls IH]; intros H; [reflexivity|].
  cbn [forallb] in H. apply andb_true_iff in H as [Hl Hls].
  unfold unlines in *. cbn [map concat]. rewrite <- app_assoc.
  cbn [app]. rewrite lines_line by exact Hl. rewrite IH by exact Hls.
  reflexivity.
Qed.

Lemma starts_with_before_eq p n v :
  lacks "="%char p = true ->
  starts_with p (n ++ "="%char :: v) = starts_with p n.
Proof.
  revert n. induction p as [|a p IH]; intros n H; [reflexivity|].
  apply lacks_cons in H as [Ha Hp].
  destruct n as [|b n].
  - cbn [app starts_with]. rewrite Ha. reflexivity.
  - cbn [app starts_with]. rewrite (IH n Hp). reflexivity.
Qed.

Lemma first_field_before_eq n v :
  lacks "="%char n = true -> first_field (n ++ "="%char :: v) = n.
Proof.
  induction n as [|c n IH]; intros H; [reflexivity|].
  apply lacks_cons in H as [Hc Hn].
  cbn [app first_field]. rewrite Hc, (IH Hn). reflexivity.
Qed.

Lemma fields_word w c rest :
  is_word w = true -> is_IFS c = true ->
  fields (w ++ c :: rest) = w :: fields rest.
Proof.
  intros Hw Hc. induction w as [|a w IH]; [discriminate|].
  cbn [is_word forallb] in Hw. apply andb_true_iff in Hw as [Ha Hw].
  apply negb_true_iff in Ha.
  change ((a :: w) ++ c :: rest) with (a :: (w ++ c :: rest)).
  cbn [fields]. rewrite Ha.
  destruct w as [|b w].
  - cbn [app]. rewrite Hc. cbn [negb fields]. rewrite Hc. reflexivity.
  - cbn [app]. cbn [forallb] in Hw.
    assert (Hb : is_IFS b = false)
      by (apply andb_true_iff in Hw as [Hb _]; apply negb_true_iff in Hb;
          exact Hb).
    rewrite Hb. cbn [negb].
    change (b :: w ++ c :: rest) with ((b :: w) ++ c :: rest).
    rewrite IH; [reflexivity|]. exact Hw.
Qed.

Lemma fields_unlines ws :
  forallb is_word ws = true -> fields (unlines ws) = ws.
Proof.
  induction ws as [|w ws IH]; intros H; [reflexivity|].
  cbn [forallb] in H. apply andb_true_iff in H as [Hw Hws].
  unfold unlines in *. cbn [map concat]. rewrite <- app_assoc. cbn [app].
  rewrite fields_word by (exact Hw || reflexivity).
  rewrite IH by exact Hws. reflexivity.
Qed.

Lemma strip_trailing_LF_nil s :
  strip_trailing_LF s = [] -> fields s = [] /\ (match s with
                                                | d :: _ => is_IFS d = true
                                                | [] => True
                                                end).
Proof.
  induction s as [|c s IH]; intros H; [split; [reflexivity|exact I]|].
  cbn [strip_trailing_LF] in H.
  destruct (strip_trailing_LF s) as [|r rs] eqn:E; [|discriminate].
  destruct (Ascii.eqb c LF) eqn:Ec; [|discriminate].
  apply Ascii.eqb_eq in Ec. subst c.
  destruct (IH eq_refl) as [Hf _]. split; [|reflexivity].
  cbn [fields]. change (is_IFS LF) with true. cbn. exact Hf.
Qed.

Lemma strip_trailing_LF_head s d r :
  strip_trailing_LF s = d :: r -> exists s', s = d :: s'.
Proof.
  destruct s as [|c s]; [discriminate|]. cbn [strip_trailing_LF].
  destruct (strip_trailing_LF s); [destruct (Ascii.eqb c LF)|];
    intros H; try discriminate; injection H as -> _; eauto.
Qed.

(** The line feeds that command substitution drops would be dropped by
    field splitting anyway. *)
Lemma fields_strip_trailing_LF s : fields (strip_trailing_LF s) = fields s.
Proof.
  induction s as [|c s IH]; [reflexivity|].
  cbn [strip_trailing_LF].
  destruct (strip_trailing_LF s) as [|d r] eqn:E.
  - destruct (strip_trailing_LF_nil s E) as [Hf Hd].
    destruct (Ascii.eqb c LF) eqn:Ec.
    + apply Ascii.eqb_eq in Ec. subst c. cbn [fields].
      change (is_IFS LF) with true. cbn. symmetry. exact Hf.
    + cbn [fields]. destruct (is_IFS c); [symmetry; exact Hf|].
      rewrite Hf. destruct s as [|d s]; [reflexivity|].
      rewrite Hd. reflexivity.
  - destruct (strip_trailing_LF_head s d r E) as [s' ->].
    cbn [fields] in *. rewrite IH. reflexivity.
Qed.

Lemma strip_trailing_LF_line x :
  lacks LF x = true -> strip_trailing_LF (x ++ [LF]) = x.
Proof.
  induction x as [|c x IH]; intros H; [reflexivity|].
  apply lacks_cons in H as [Hc Hx].
  cbn [app strip_trailing_LF]. rewrite (IH Hx).
  destruct x; [rewrite Hc|]; reflexivity.
Qed.

Lemma forallb_impl {A} (P Q : A -> bool) l :
  (forall x, P x = true -> Q x = true) ->
  forallb P l = true -> forallb Q l = true.
Proof.
  intros HPQ. induction l as [|x l IH]; [reflexivity|].
  cbn [forallb]. intros H. apply andb_true_iff in H as [Hx Hl].
  rewrite (HPQ x Hx), (IH Hl). reflexivity.
Qed.

Lemma fields_forallb (P : ascii -> bool) v :
  forallb P v = true -> forallb (forallb P) (fields v) = true.
Proof.
  induction v as [|c v IH]; intros H; [reflexivity|].
  cbn [forallb] in H. apply andb_true_iff in H as [Hc Hv].
  specialize (IH Hv). cbn [fields].
  destruct (is_IFS c); [exact IH|].
  destruct (match v with d :: _ => negb (is_IFS d) | [] => false end).
  - destruct (fields v) as [|w ws].
    + cbn [forallb]. rewrite Hc. reflexivity.
    + cbn [forallb] in *. rewrite Hc. exact IH.
  - cbn [forallb]. rewrite Hc, IH. reflexivity.
Qed.

Lemma fields_are_words v : forallb is_word (fields v) = true.
Proof.
  induction v as [|c v IH]; [reflexivity|]. cbn [fields].
  destruct (is_IFS c) eqn:Ec; [exact IH|].
  destruct (match v with d :: _ => negb (is_IFS d) | [] => false end).
  - destruct (fields v) as [|w ws].
    + cbn. rewrite Ec. reflexivity.
    + cbn [forallb] in *. apply andb_true_iff in IH as [Hw Hws].
      rewrite Hws, andb_true_r. destruct w; [discriminate|].
      cbn [is_word forallb] in *. rewrite Ec. exact Hw.
  - cbn [forallb is_word]. rewrite Ec, IH. reflexivity.
Qed.

Lemma unwords_forallb (P : ascii -> bool) ws :
  P SP = true -> forallb (forallb P) ws = true ->
  forallb P (unwords ws) = true.
Proof.
  intros HP. induction ws as [|w ws IH]; intros H; [reflexivity|].
  cbn [forallb] in H. apply andb_true_iff in H as [Hw Hws].
  cbn [unwords]. destruct ws as [|w' ws]; [exact Hw|].
  rewrite forallb_app, Hw. cbn [forallb]. rewrite HP, (IH Hws). reflexivity.
Qed.

Lemma word_lacks_LF w : is_word w = true -> lacks LF w = true.
Proof.
  destruct w as [|c w]; [discriminate|]. unfold is_word, lacks.
  apply forallb_impl. intros d Hd. apply negb_true_iff in Hd.
  apply negb_true_iff. unfold is_IFS in Hd.
  apply orb_false_iff in Hd as [_ Hd]. exact Hd.
Qed.

Lemma normalised_lacks c v :
  Ascii.eqb SP c = false -> lacks c v = true -> lacks c (normalised v) = true.
Proof.
  intros Hc Hv. unfold normalised, lacks.
  apply unwords_forallb; [rewrite Hc; reflexivity|].
  apply fields_forallb. exact Hv.
Qed.

Lemma normalised_lacks_LF v : lacks LF (normalised v) = true.
Proof.
  unfold normalised, lacks. apply unwords_forallb; [reflexivity|].
  generalize (fields_are_words v).
  apply forallb_impl. intros w Hw. apply (word_lacks_LF w Hw).
Qed.

(** What [eval echo] makes of a plain value: its fields, separated by
    single spaces. *)
Lemma eval_echo_plain e var :
  plain_value (getenv e var) = true ->
  eval_echo e var = Some (normalised (getenv e var)).
Proof.
  unfold plain_value, eval_echo. intros H.
  repeat (apply andb_true_iff in H as [H ?]).
  rewrite (fields_forallb _ _ H1 : forallb no_glob _ = true).
  unfold echo. apply negb_true_iff in H0. rewrite H0.
  rewrite (fields_forallb _ _ H3 : forallb (lacks BACKSLASH) _ = true).
  cbn [negb orb option_map]. f_equal.
  apply strip_trailing_LF_line, normalised_lacks_LF.
Qed.

Lemma getenv_In e name value :
  NoDup (map fst e) -> In (name, value) e -> getenv e name = value.
Proof.
  unfold getenv. induction e as [|[n v] e IH]; intros Hnd Hin; [destruct Hin|].
  cbn [map fst] in Hnd. inversion Hnd as [|? ? Hn Hnd']; subst.
  cbn [find fst snd]. unfold text_eqb.
  destruct Hin as [Heq|Hin].
  - injection Heq as -> ->. rewrite bool_decide_eq_true_2 by reflexivity.
    reflexivity.
  - rewrite bool_decide_eq_false_2.
    + apply IH; assumption.
    + intros ->. apply Hn. apply list_elem_of_In.
      apply (in_map fst _ _ Hin).
Qed.

(** *** Names *)

Lemma name_char_facts d :
  is_letter d || is_digit d || Ascii.eqb d "_" = true ->
  is_IFS d = false
  /\ Ascii.eqb d "=" = false
  /\ Ascii.eqb d LF = false
  /\ Ascii.eqb d BACKSLASH = false
  /\ is_ident_part d = true.
Proof.
  destruct d as [[] [] [] [] [] [] [] []]; vm_compute; intros H;
    try discriminate H; repeat split.
Qed.

Lemma name_start_facts c :
  is_letter c || Ascii.eqb c "_" = true ->
  is_letter c || is_digit c || Ascii.eqb c "_" = true
  /\ is_ident_start c = true.
Proof.
  destruct c as [[] [] [] [] [] [] [] []]; vm_compute; intros H;
    try discriminate H; repeat split.
Qed.

Lemma Name_chars n :
  is_Name n = true ->
  forallb (fun d => is_letter d || is_digit d || Ascii.eqb d "_") n = true.
Proof.
  destruct n as [|c r]; [discriminate|]. cbn [is_Name forallb].
  intros H. apply andb_true_iff in H as [Hc Hr].
  rewrite (proj1 (name_start_facts c Hc)), Hr. reflexivity.
Qed.

Lemma Name_is_word n : is_Name n = true -> is_word n = true.
Proof.
  intros H. pose proof (Name_chars n H) as Hc.
  destruct n as [|c r]; [discriminate|]. unfold is_word.
  revert Hc. apply forallb_impl. intros d Hd.
  rewrite (proj1 (name_char_facts d Hd)). reflexivity.
Qed.

Lemma Name_lacks n c :
  is_letter c || is_digit c || Ascii.eqb c "_" = false ->
  is_Name n = true -> lacks c n = true.
Proof.
  intros Hc H. generalize (Name_chars n H). unfold lacks.
  apply forallb_impl. intros d Hd. apply negb_true_iff.
  destruct (Ascii.eqb d c) eqn:E; [|reflexivity].
  apply Ascii.eqb_eq in E. subst d. congruence.
Qed.

(** *** The words of the inner loop *)

Lemma line_of_lacks_LF nv :
  well_formed_entry nv = true -> lacks LF (line_of nv) = true.
Proof.
  unfold well_formed_entry, line_of. intros H.
  apply andb_true_iff in H as [Hn Hv].
  rewrite lacks_app, (Name_lacks _ LF eq_refl Hn).
  unfold lacks in *. cbn [forallb]. rewrite Hv. reflexivity.
Qed.

Lemma filter_line_of prefix e :
  lacks "="%char prefix = true ->
  List.filter (starts_with prefix) (map line_of e)
  = map line_of (selected prefix e).
Proof.
  intros Hp. unfold selected. induction e as [|nv e IH]; [reflexivity|].
  cbn [map List.filter]. unfold line_of at 1.
  rewrite starts_with_before_eq by exact Hp.
  destruct (starts_with prefix (fst nv)); cbn [map]; rewrite IH; reflexivity.
Qed.

Lemma selected_well_formed prefix e :
  forallb well_formed_entry e = true ->
  forallb well_formed_entry (selected prefix e) = true.
Proof.
  intros H. apply forallb_forall. intros nv Hin.
  apply filter_In in Hin as [Hin _].
  exact (proj1 (forallb_forall _ _) H nv Hin).
Qed.

Lemma first_field_line_of e :
  forallb well_formed_entry e = true ->
  map first_field (map line_of e) = map fst e.
Proof.
  induction e as [|nv e IH]; intros H; [reflexivity|].
  cbn [forallb] in H. apply andb_true_iff in H as [Hnv He].
  cbn [map]. rewrite (IH He). f_equal. unfold line_of.
  apply first_field_before_eq.
  apply andb_true_iff in Hnv as [Hn _]. exact (Name_lacks _ "=" eq_refl Hn).
Qed.

Lemma forallb_map {A B} (f : A -> B) (P : B -> bool) l :
  forallb P (map f l) = forallb (fun x => P (f x)) l.
Proof. induction l as [|x l IH]; [reflexivity|]. cbn. rewrite IH. reflexivity. Qed.

(** On a well-formed environment the pipeline yields the names that start
    with the prefix, in the order of the environment. *)
Lemma loop_words_well_formed e prefix :
  forallb well_formed_entry e = true ->
  lacks "="%char prefix = true ->
  loop_words e prefix = Some (map fst (selected prefix e)).
Proof.
  intros He Hp. unfold loop_words.
  pose proof (selected_well_formed prefix e He) as Hs.
  assert (E : fields (strip_trailing_LF
                (awk_F_eq_print_1 (grep_E_anchored prefix (env e))))
              = map fst (selected prefix e)).
  { rewrite fields_strip_trailing_LF.
    unfold awk_F_eq_print_1, grep_E_anchored, env.
    change (map (fun nv => fst nv ++ "="%char :: snd nv) e) with (map line_of e).
    rewrite (lines_unlines (map line_of e))
      by (rewrite forallb_map; revert He; apply forallb_impl;
          apply line_of_lacks_LF).
    rewrite filter_line_of by exact Hp.
    rewrite (lines_unlines (map line_of (selected prefix e)))
      by (rewrite forallb_map; revert Hs; apply forallb_impl;
          apply line_of_lacks_LF).
    rewrite first_field_line_of by exact Hs.
    apply fields_unlines. rewrite forallb_map. revert Hs.
    apply forallb_impl. intros nv Hnv.
    apply andb_true_iff in Hnv as [Hn _]. apply Name_is_word, Hn. }
  rewrite E.
  replace (forallb _ (map fst (selected prefix e))) with true; [reflexivity|].
  symmetry. rewrite forallb_map. apply forallb_forall. intros nv Hin.
  pose proof (proj1 (forallb_forall _ _) Hs nv Hin) as Hnv.
  apply andb_true_iff in Hnv as [Hn _]. rewrite Hn.
  apply filter_In in Hin as [_ Hp']. exact Hp'.
Qed.

(** *** The lines of the file *)

Lemma leading_dash_property_line var value :
  leading_dash [property_line var value] = false.
Proof. reflexivity. Qed.

Lemma echo_property_line var value :
  is_Name var = true -> lacks BACKSLASH value = true ->
  echo [property_line var value] = Some (property_line var value ++ [LF]).
Proof.
  intros Hn Hv. unfold echo. rewrite leading_dash_property_line.
  cbn [forallb]. unfold property_line.
  rewrite !lacks_app, (Name_lacks _ BACKSLASH eq_refl Hn), Hv.
  reflexivity.
Qed.

Lemma traverse_map {A B C} (f : A -> B) (g : B -> option C) (h : A -> C) l :
  (forall x, In x l -> g (f x) = Some (h x)) ->
  traverse g (map f l) = Some (map h l).
Proof.
  induction l as [|x l IH]; intros H; [reflexivity|].
  cbn [map traverse]. rewrite (H x (or_introl eq_refl)).
  rewrite IH by (intros y Hy; apply H; right; exact Hy). reflexivity.
Qed.

Lemma loop_outputs_plain e prefix :
  plain_environment e -> In prefix (fields ENV_VARS) ->
  loop_outputs e prefix = Some (map output_for (selected prefix e)).
Proof.
  intros (Hnd & Hwf & Hpl) Hp. unfold loop_outputs.
  rewrite loop_words_well_formed;
    [|exact Hwf|destruct Hp as [<-|[<-|[]]]; reflexivity].
  apply traverse_map. intros [n v] Hin. cbn [fst snd].
  apply filter_In in Hin as [Hin Hsel]. cbn [fst] in Hsel.
  pose proof (proj1 (forallb_forall _ _) Hwf _ Hin) as Hnv.
  apply andb_true_iff in Hnv as [Hn _]. cbn [fst] in Hn.
  pose proof (proj1 (forallb_forall _ _) Hpl _ Hin) as Hv.
  cbn [fst snd] in Hv.
  assert (Hw : whitelisted n = true).
  { unfold whitelisted. apply existsb_exists. exists prefix. split; assumption. }
  rewrite Hw in Hv. cbn [implb] in Hv.
  pose proof (getenv_In e n v Hnd Hin) as Hg.
  rewrite eval_echo_plain by (rewrite Hg; exact Hv). rewrite Hg.
  unfold output_for. cbn [fst snd]. apply echo_property_line; [exact Hn|].
  apply normalised_lacks; [reflexivity|].
  unfold plain_value in Hv. repeat (apply andb_true_iff in Hv as [Hv ?]).
  assumption.
Qed.

Lemma front_env_js_content_plain e :
  plain_environment e ->
  front_env_js_content e
  = Some (txt "window._env_ = {" ++ [LF]
            ++ concat (map output_for (selected_entries e))
            ++ txt "};" ++ [LF]).
Proof.
  intros H. unfold front_env_js_content.
  change (fields ENV_VARS) with [txt "STAGE"; txt "API_URL"].
  cbn [traverse].
  rewrite !(loop_outputs_plain e) by (exact H || (vm_compute; tauto)).
  cbn [concat]. rewrite app_nil_r.
  unfold selected_entries. rewrite map_app. reflexivity.
Qed.

(** ** Reading the generated script *)

Lemma lex_ident_run name acc c rest :
  forallb is_ident_part name = true -> is_ident_part c = false ->
  lex (InIdent acc) (name ++ c :: rest)
  = lex (InIdent (rev name ++ acc)) (c :: rest).
Proof.
  intros Hn Hc. revert acc. induction name as [|d name IH]; intros acc.
  - reflexivity.
  - cbn [forallb] in Hn. apply andb_true_iff in Hn as [Hd Hn].
    cbn [app lex]. rewrite Hd, (IH Hn). cbn [rev].
    rewrite <- app_assoc. reflexivity.
Qed.

Lemma lex_string_run s acc rest :
  literal_text s = true ->
  lex (InString acc) (s ++ DQ :: rest)
  = cons_token (TString (rev acc ++ s)) (lex Between rest).
Proof.
  unfold literal_text. intros H. repeat (apply andb_true_iff in H as [H ?]).
  revert acc. induction s as [|d s IH]; intros acc.
  - cbn [app lex]. rewrite Ascii.eqb_refl, app_nil_r. reflexivity.
  - apply lacks_cons in H as [Hq Hs]. apply lacks_cons in H0 as [Hb Hs0].
    apply lacks_cons in H1 as [Hr Hs1]. apply lacks_cons in H2 as [Hl Hs2].
    cbn [app lex]. rewrite Hq, Hl, Hr, Hb. cbn [orb].
    rewrite (IH Hs Hs2 Hs1 Hs0). cbn [rev]. rewrite <- app_assoc.
    reflexivity.
Qed.

Lemma lex_property_line k v rest :
  is_Name k = true -> literal_text v = true ->
  lex Between (output_line (k, v) ++ rest)
  = cons_token (TIdent k)
      (cons_token TColon
         (cons_token (TString v) (cons_token TComma (lex Between rest)))).
Proof.
  intros Hk Hv. unfold output_line, property_line. cbn [fst snd].
  rewrite <- !app_assoc.
  destruct k as [|c r]; [discriminate|].
  cbn [is_Name] in Hk. apply andb_true_iff in Hk as [Hc Hr].
  assert (Hr' : forallb is_ident_part r = true).
  { revert Hr. apply forallb_impl. intros d Hd.
    apply (name_char_facts d Hd). }
  change (lex Between (txt "    " ++ (c :: r) ++ txt ": " ++ [DQ] ++ v ++ [DQ]
                         ++ txt "," ++ [LF] ++ rest))
    with (lex Between (c :: (r ++ ":"%char :: SP :: DQ
                                :: (v ++ DQ :: ","%char :: LF :: rest)))).
  cbn [lex]. rewrite (proj2 (name_start_facts c Hc)).
  rewrite lex_ident_run by (exact Hr' || reflexivity).
  cbn [lex]. change (is_ident_part ":") with false. cbv iota.
  change (is_js_space ":") with false. cbv iota.
  change (Ascii.eqb ":" DQ) with false. cbv iota.
  change (punctuator ":") with (Some TColon). cbv iota.
  change (is_ident_start SP) with false. cbv iota.
  change (is_js_space SP) with true. cbv iota.
  change (is_ident_start DQ) with false. cbv iota.
  change (is_js_space DQ) with false. cbv iota.
  rewrite Ascii.eqb_refl.
  rewrite lex_string_run by exact Hv. cbn [rev app].
  cbn [lex]. change (is_ident_start ",") with false. cbv iota.
  change (is_js_space ",") with false. cbv iota.
  change (Ascii.eqb "," DQ) with false. cbv iota.
  change (punctuator ",") with (Some TComma). cbv iota.
  change (is_ident_start LF) with false. cbv iota.
  change (is_js_space LF) with true. cbv iota.
  rewrite rev_app_distr, rev_involutive. reflexivity.
Qed.

Lemma lex_output_lines kvs rest ts :
  forallb (fun kv => is_Name (fst kv) && literal_text (snd kv)) kvs = true ->
  lex Between rest = LexOk ts ->
  lex Between (concat (map output_line kvs) ++ rest)
  = LexOk (concat (map tokens_for kvs) ++ ts).
Proof.
  intros H Hrest. induction kvs as [|[k v] kvs IH]; [exact Hrest|].
  cbn [forallb fst snd] in H. apply andb_true_iff in H as [Hkv H].
  apply andb_true_iff in Hkv as [Hk Hv].
  cbn [map concat]. rewrite <- app_assoc.
  rewrite lex_property_line by assumption.
  rewrite (IH H). reflexivity.
Qed.

Lemma parse_property_tokens kvs o :
  forallb (fun kv => negb (text_eqb (fst kv) (txt "__proto__"))) kvs = true ->
  parse_properties (concat (map tokens_for kvs) ++ [TRBrace; TSemi]) o
  = Some (fold_left define_property kvs o).
Proof.
  revert o. induction kvs as [|[k v] kvs IH]; intros o H; [reflexivity|].
  cbn [forallb fst] in H. apply andb_true_iff in H as [Hk H].
  apply negb_true_iff in Hk.
  cbn [map concat tokens_for fst snd app parse_properties].
  rewrite Hk. rewrite (IH _ H). reflexivity.
Qed.

Lemma lookup_defined_properties kvs k v :
  functional kvs ->
  fold_left define_property kvs ∅ !! k = Some v <-> In (k, v) kvs.
Proof.
  induction kvs as [|[k1 v1] kvs IH] using rev_ind; intros F.
  - cbn. rewrite lookup_empty. split; [discriminate|tauto].
  - rewrite fold_left_app. cbn [fold_left]. unfold define_property at 1.
    cbn [fst snd].
    assert (F' : functional kvs).
    { intros a b b' H1 H2. apply (F a); apply in_or_app; left; assumption. }
    destruct (decide (k1 = k)) as [->|Hne].
    + rewrite lookup_insert_eq. split.
      * intros [= ->]. apply in_or_app. right. left. reflexivity.
      * intros Hin. f_equal. apply (F k); [|exact Hin].
        apply in_or_app. right. left. reflexivity.
    + rewrite lookup_insert_ne by exact Hne. rewrite (IH F'). split.
      * intros Hin. apply in_or_app. left. exact Hin.
      * intros Hin. apply in_app_or in Hin as [Hin|[Heq|[]]]; [exact Hin|].
        congruence.
Qed.

Lemma lex_header rest :
  lex Between (txt "window._env_ = {" ++ [LF] ++ rest)
  = cons_token (TIdent (txt "window"))
      (cons_token TDot
         (cons_token (TIdent (txt "_env_"))
            (cons_token TAssign (cons_token TLBrace (lex Between rest))))).
Proof. reflexivity. Qed.

Lemma lex_footer : lex Between (txt "};" ++ [LF]) = LexOk [TRBrace; TSemi].
Proof. reflexivity. Qed.

Lemma whitelisted_unfold name :
  whitelisted name
  = starts_with (txt "STAGE") name || starts_with (txt "API_URL") name.
Proof.
  unfold whitelisted.
  change (fields ENV_VARS) with [txt "STAGE"; txt "API_URL"].
  cbn [existsb]. rewrite orb_false_r. reflexivity.
Qed.

Lemma selected_entries_In nv e :
  In nv (selected_entries e) <-> In nv e /\ whitelisted (fst nv) = true.
Proof.
  unfold selected_entries, selected.
  rewrite in_app_iff, !filter_In, whitelisted_unfold, orb_true_iff. tauto.
Qed.

Lemma object_entries_In k v' e :
  In (k, v') (object_entries e)
  <-> whitelisted k = true /\ exists v, In (k, v) e /\ v' = normalised v.
Proof.
  unfold object_entries. rewrite in_map_iff. split.
  - intros ([n v] & [= <- <-] & Hin). apply selected_entries_In in Hin as [Hin Hw].
    split; [exact Hw|]. exists v. split; [exact Hin|reflexivity].
  - intros (Hw & v & Hin & ->). exists (k, v). split; [reflexivity|].
    apply selected_entries_In. split; assumption.
Qed.

Lemma object_entries_functional e :
  NoDup (map fst e) -> functional (object_entries e).
Proof.
  intros Hnd k v1 v2 H1 H2.
  apply object_entries_In in H1 as (_ & u1 & Hu1 & ->).
  apply object_entries_In in H2 as (_ & u2 & Hu2 & ->).
  rewrite <- (getenv_In e k u1 Hnd Hu1), <- (getenv_In e k u2 Hnd Hu2).
  reflexivity.
Qed.

Lemma whitelisted_not_proto k :
  whitelisted k = true -> text_eqb k (txt "__proto__") = false.
Proof.
  intros H. unfold text_eqb. apply bool_decide_eq_false_2. intros ->.
  discriminate H.
Qed.

Lemma plain_value_literal v :
  plain_value v = true -> literal_text (normalised v) = true.
Proof.
  unfold plain_value, literal_text. intros H.
  repeat (apply andb_true_iff in H as [H ?]).
  rewrite (normalised_lacks DQ), (normalised_lacks CR),
    (normalised_lacks BACKSLASH) by (assumption || reflexivity).
  rewrite normalised_lacks_LF. reflexivity.
Qed.

(** The script written for a plain environment parses, and defines the
    entries of [object_entries]. *)
Lemma js_load_generated e :
  plain_environment e ->
  js_load (txt "window._env_ = {" ++ [LF]
             ++ concat (map output_for (selected_entries e))
             ++ txt "};" ++ [LF])
  = Loaded (fold_left define_property (object_entries e) ∅).
Proof.
  intros (Hnd & Hwf & Hpl).
  assert (Hall : forall k v', In (k, v') (object_entries e) ->
            is_Name k = true /\ literal_text v' = true /\ whitelisted k = true).
  { intros k v' Hin. apply object_entries_In in Hin as (Hw & v & Hin & ->).
    pose proof (proj1 (forallb_forall _ _) Hwf _ Hin) as Hnv.
    apply andb_true_iff in Hnv as [Hn _].
    pose proof (proj1 (forallb_forall _ _) Hpl _ Hin) as Hv.
    cbn [fst snd] in Hn, Hv. rewrite Hw in Hv.
    split; [exact Hn|]. split; [apply plain_value_literal; exact Hv|exact Hw]. }
  unfold js_load. rewrite lex_header.
  replace (map output_for (selected_entries e))
    with (map output_line (object_entries e))
    by (unfold object_entries; rewrite map_map; reflexivity).
  rewrite (lex_output_lines _ _ [TRBrace; TSemi]); [| |exact lex_footer].
  - cbn [cons_token]. unfold text_eqb.
    rewrite !bool_decide_eq_true_2 by reflexivity. cbn [andb].
    rewrite parse_property_tokens; [reflexivity|].
    apply forallb_forall. intros [k v'] Hin. cbn [fst].
    rewrite whitelisted_not_proto; [reflexivity|]. apply (Hall k v' Hin).
  - apply forallb_forall. intros [k v'] Hin. cbn [fst snd].
    destruct (Hall k v' Hin) as (-> & -> & _). reflexivity.
Qed.

(** ** The generated configuration object *)



Lemma env_qas_plain : plain_environment env_qas.
Proof.
  split; [|split; vm_compute; reflexivity].
  apply (bool_decide_unpack _). vm_compute. exact I.
Qed.


(** A value of several lines can make up an entry: [env] prints the second
    line of [FOO] as if it were a variable [STAGE_B], and the script
    defines that key, which the environment does not hold. *)
Example start_sh_key_not_in_environment :
  exists w' o,
    start_sh no_fault 0 env_two_lines empty_world = Some (0, w')
    /\ files w' !! front_env_js
       = Some (txt "window._env_ = {" ++ [LF]
                 ++ txt "    STAGE_B: " ++ [DQ; DQ] ++ txt "," ++ [LF]
                 ++ txt "};" ++ [LF])
    /\ js_load (txt "window._env_ = {" ++ [LF]
                  ++ txt "    STAGE_B: " ++ [DQ; DQ] ++ txt "," ++ [LF]
                  ++ txt "};" ++ [LF]) = Loaded o
    /\ o !! txt "STAGE_B" = Some []
    /\ ~ In (txt "STAGE_B") (map fst env_two_lines).
Proof.
  eexists _, _. repeat split; try (vm_compute; reflexivity).
  vm_compute. intros [H|[]]. discriminate H.
Qed.

(** With no selected variable the file is the empty object. *)
Example start_sh_empty_object :
  exists w',
    start_sh no_fault 0 [(txt "HOME", txt "/root")] empty_world = Some (0, w')
    /\ files w' !! front_env_js
       = Some (txt "window._env_ = {" ++ [LF] ++ txt "};" ++ [LF])
    /\ js_load (txt "window._env_ = {" ++ [LF] ++ txt "};" ++ [LF]) = Loaded ∅.
Proof. eexists. repeat split; vm_compute; reflexivity. Qed.

(** ** Invariants of a run *)

Section Invariant.

Variable Inv : world -> Prop.

Variable fault : nat -> bool.

Hypothesis Inv_log : forall w ev, Inv w -> Inv (log ev w).

Hypothesis Inv_redirect :
  forall w mode out,
    Inv w -> Inv (snd (redirect fault mode front_env_js out w)).

Lemma echo_stdout_keeps operands out :
  echo operands = Some out ->
  triple Inv (echo_stdout operands) (fun _ => Inv).
Proof using Inv_log.
  intros E w H. unfold echo_stdout. rewrite E. eexists _, _.
  split; [reflexivity|]. apply Inv_log, H.
Qed.

Lemma mkdir_p_keeps path :
  triple Inv (mkdir_p fault path) (fun _ => Inv).
Proof using Inv_log.
  intros w H. unfold mkdir_p.
  destruct (is_event_ok fault w); eexists _, _; (split; [reflexivity|]);
    apply Inv_log, H.
Qed.

Lemma echo_to_keeps mode operands out :
  echo operands = Some out ->
  triple Inv (echo_to fault mode front_env_js operands) (fun _ => Inv).
Proof using Inv_redirect.
  intros E w H. unfold echo_to. rewrite E.
  destruct (redirect fault mode front_env_js out w) as [s w'] eqn:R.
  exists s, w'. split; [reflexivity|].
  change w' with (snd (s, w')). rewrite <- R. apply Inv_redirect, H.
Qed.

Lemma outer_body_keeps e prefix outs :
  loop_outputs e prefix = Some outs ->
  triple Inv
         (vars ← lift (loop_words e prefix);
          sh_for vars (fun var =>
            value ← lift (eval_echo e var);
            echo_to fault Append front_env_js [property_line var value]))
         (fun _ => Inv).
Proof using Inv_redirect.
  unfold loop_outputs. intros H.
  destruct (loop_words e prefix) as [vars|] eqn:E; [|discriminate].
  eapply triple_bind; [apply triple_lift; reflexivity|].
  intros a w [-> Hw]. revert w Hw.
  eapply triple_weaken;
    [eapply (triple_for (fun _ : list text => Inv)) with (acc := []);
       [|exact H] | auto | auto].
  intros x y acc Hx. cbv beta in Hx.
  destruct (eval_echo e x) as [value|] eqn:Ev; [|discriminate].
  eapply triple_bind; [apply triple_lift; reflexivity|].
  intros b w [-> Hw]. eapply echo_to_keeps; eassumption.
Qed.


(** What every event and every redirection to front.env.js keeps, a run
    of the script keeps. *)
Lemma start_sh_keeps status e w0 :
  covered e = true -> Inv w0 ->
  exists w', start_sh fault status e w0 = Some (status, w') /\ Inv w'.
Proof using Inv_log Inv_redirect.
  intros C H0. destruct (covered_outputs e C) as (outs & T & _).
  assert (H : triple Inv (start_sh fault status e)
                (fun s w => s = status /\ Inv w)).
  { unfold start_sh.
    eapply triple_bind; [eapply echo_stdout_keeps; reflexivity|]. intros ?.
    eapply triple_bind; [apply mkdir_p_keeps|]. intros ?.
    eapply triple_bind; [eapply echo_to_keeps; reflexivity|]. intros ?.
    eapply triple_bind with (Q := fun _ => Inv).
    { eapply triple_weaken;
        [eapply (triple_for (fun _ : list (list text) => Inv))
           with (acc := []); [|exact T] | auto | auto].
      intros x y acc. apply outer_body_keeps. }
    intros ?.
    eapply triple_bind; [eapply echo_to_keeps; reflexivity|]. intros ?.
    eapply triple_bind; [eapply echo_stdout_keeps; reflexivity|]. intros ?.
    intros w Hw. eexists _, _. split; [reflexivity|].
    split; [reflexivity|]. apply Inv_log, Hw. }
  destruct (H w0 H0) as (s & w' & E & -> & Hw). exists w'. split; assumption.
Qed.

End Invariant.




(** X2: on a covered environment, when every operation on the file
    system fails, the run leaves the files exactly as they were, a
    front.env.js of an earlier start included, and starts the server all
    the same. *)
Theorem start_sh_all_failures_keep_files fault status e w0 :
  covered e = true -> (forall k, fault k = true) ->
  exists w',
    start_sh fault status e w0 = Some (status, w')
    /\ files w' = files w0
    /\ last (trace w') = Some (Run nginx_command).
Proof.
  intros C Hf.
  destruct (start_sh_keeps (fun w => files w = files w0) fault) with
    (status := status) (e := e) (w0 := w0) as (w' & E & F);
    try assumption; try reflexivity.
  - intros w ev H. exact H.
  - intros w mode out H. unfold redirect, is_event_ok. rewrite Hf. exact H.
  - exists w'. split; [exact E|]. split; [exact F|].
    destruct (start_sh_runs_server fault status e w0 C)
      as (w1 & evs & E1 & T & _).
    assert (w1 = w') by congruence. subst w1.
    rewrite T, app_assoc. apply last_snoc.
Qed.

Lemma start_sh_all_failures_keep_files_witness :
  covered env_qas = true
  /\ (forall k, every_operation_fails k = true)
  /\ exists w',
       start_sh every_operation_fails 0 env_qas world_with_stale_file
       = Some (0, w')
       /\ files w' = files world_with_stale_file
       /\ last (trace w') = Some (Run nginx_command).
Proof.
  assert (C : covered env_qas = true) by (vm_compute; reflexivity).
  assert (Hf : forall k, every_operation_fails k = true)
    by (intros k; reflexivity).
  split; [exact C|]. split; [exact Hf|].
  exact (start_sh_all_failures_keep_files every_operation_fails 0 env_qas
           world_with_stale_file C Hf).
Defined.

(** ** The layout of the generated file *)

(** X3: for a plain environment and without a failing operation, the file
    is the opening line, then one line [    NAME: "value",] per selected
    variable, those of the prefix STAGE first and those of the prefix
    API_URL after them, each group in the order of the environment, then
    the closing line. *)
Theorem start_sh_file_layout status e w0 :
  plain_environment e ->
  exists w',
    start_sh no_fault status e w0 = Some (status, w')
    /\ files w' !! front_env_js
       = Some (txt "window._env_ = {" ++ [LF]
                 ++ concat (map (fun nv =>
                                   property_line (fst nv) (normalised (snd nv))
                                     ++ [LF])
                              (selected (txt "STAGE") e
                                 ++ selected (txt "API_URL") e))
                 ++ txt "};" ++ [LF]).
Proof.
  intros H.
  apply (start_sh_writes_file no_fault (fun _ => eq_refl) status e w0).
  apply front_env_js_content_plain. exact H.
Qed.

Lemma env_with_home_plain : plain_environment env_with_home.
Proof.
  split; [|split; vm_compute; reflexivity].
  apply (bool_decide_unpack _). vm_compute. exact I.
Qed.

Lemma start_sh_file_layout_witness :
  plain_environment env_with_home
  /\ exists w',
       start_sh no_fault 0 env_with_home empty_world = Some (0, w')
       /\ files w' !! front_env_js
          = Some (txt "window._env_ = {" ++ [LF]
                    ++ txt "    STAGE: " ++ [DQ] ++ txt "QAS" ++ [DQ]
                    ++ txt "," ++ [LF]
                    ++ txt "    API_URL: " ++ [DQ]
                    ++ txt "http://example.qas.com/api" ++ [DQ]
                    ++ txt "," ++ [LF]
                    ++ txt "};" ++ [LF]).
Proof.
  split; [exact env_with_home_plain|].
  destruct (start_sh_file_layout 0 env_with_home empty_world
              env_with_home_plain) as (w' & E & F).
  exists w'. split; [exact E|]. rewrite F. vm_compute. reflexivity.
Defined.

Lemma filter_filter_impl {A} (f g : A -> bool) l :
  (forall x, f x = true -> g x = true) ->
  List.filter f (List.filter g l) = List.filter f l.
Proof.
  intros H. induction l as [|x l IH]; [reflexivity|]. cbn [List.filter].
  destruct (g x) eqn:G.
  - cbn [List.filter]. rewrite IH. reflexivity.
  - destruct (f x) eqn:F; [rewrite (H x F) in G; discriminate|]. exact IH.
Qed.

Lemma selected_entries_whitelisted e :
  selected_entries (List.filter (fun nv => whitelisted (fst nv)) e)
  = selected_entries e.
Proof.
  unfold selected_entries, selected.
  rewrite !filter_filter_impl; [reflexivity| |];
    intros nv H; rewrite whitelisted_unfold, H;
    [apply orb_true_r|reflexivity].
Qed.

(** X4: the variables outside the whitelist have no say in the file: two
    plain environments with the same whitelisted entries, in the same
    order, get the same bytes. *)
Theorem start_sh_ignores_other_variables status e1 e2 w0 :
  plain_environment e1 -> plain_environment e2 ->
  List.filter (fun nv => whitelisted (fst nv)) e1
  = List.filter (fun nv => whitelisted (fst nv)) e2 ->
  exists w1 w2 content,
    start_sh no_fault status e1 w0 = Some (status, w1)
    /\ start_sh no_fault status e2 w0 = Some (status, w2)
    /\ files w1 !! front_env_js = Some content
    /\ files w2 !! front_env_js = Some content.
Proof.
  intros H1 H2 Hf.
  pose proof (front_env_js_content_plain e1 H1) as C1.
  pose proof (front_env_js_content_plain e2 H2) as C2.
  rewrite <- (selected_entries_whitelisted e2), <- Hf,
    selected_entries_whitelisted in C2.
  destruct (start_sh_writes_file no_fault (fun _ => eq_refl) status e1 w0 _ C1)
    as (w1 & E1 & F1).
  destruct (start_sh_writes_file no_fault (fun _ => eq_refl) status e2 w0 _ C2)
    as (w2 & E2 & F2).
  eexists w1, w2, _. repeat split; eassumption.
Qed.

Lemma start_sh_ignores_other_variables_witness :
  plain_environment env_qas /\ plain_environment env_with_home
  /\ List.filter (fun nv => whitelisted (fst nv)) env_qas
     = List.filter (fun nv => whitelisted (fst nv)) env_with_home
  /\ exists w1 w2 content,
       start_sh no_fault 0 env_qas empty_world = Some (0, w1)
       /\ start_sh no_fault 0 env_with_home empty_world = Some (0, w2)
       /\ files w1 !! front_env_js = Some content
       /\ files w2 !! front_env_js = Some content.
Proof.
  assert (Hf : List.filter (fun nv => whitelisted (fst nv)) env_qas
               = List.filter (fun nv => whitelisted (fst nv)) env_with_home)
    by (vm_compute; reflexivity).
  split; [exact env_qas_plain|]. split; [exact env_with_home_plain|].
  split; [exact Hf|].
  exact (start_sh_ignores_other_variables 0 env_qas env_with_home empty_world
           env_qas_plain env_with_home_plain Hf).
Defined.

Lemma prefixes_disjoint n :
  starts_with (txt "STAGE") n = true -> starts_with (txt "API_URL") n = false.
Proof.
  destruct n as [|a n]; [discriminate|]. cbn [txt list_ascii_of_string starts_with].
  intros H. apply andb_true_iff in H as [H _]. apply Ascii.eqb_eq in H.
  subst a. reflexivity.
Qed.

(** The selected entries are the whitelisted entries, rearranged by
    prefix. *)
Lemma selected_entries_rearranged e :
  Permutation (selected_entries e)
              (List.filter (fun nv => whitelisted (fst nv)) e).
Proof.
  unfold selected_entries, selected.
  induction e as [|nv e IH]; [constructor|].
  cbn [List.filter]. rewrite whitelisted_unfold.
  destruct (starts_with (txt "STAGE") (fst nv)) eqn:S.
  - rewrite (prefixes_disjoint _ S). cbn [orb app].
    constructor. exact IH.
  - cbn [orb]. destruct (starts_with (txt "API_URL") (fst nv)); [|exact IH].
    symmetry. apply Permutation_cons_app. symmetry. exact IH.
Qed.

(** ** What [eval echo] does to a value *)










(** ** From the environment to the accessor *)

Lemma entry_generated e name :
  plain_environment e ->
  entry (fold_left define_property (object_entries e) ∅) name
  = if whitelisted name
    then match find (fun nv => text_eqb (fst nv) name) e with
         | Some nv => JString (normalised (snd nv))
         | None => JUndefined
         end
    else JUndefined.
Proof.
  intros (Hnd & _ & _). unfold entry.
  pose proof (object_entries_functional e Hnd) as Fn.
  destruct (fold_left define_property (object_entries e) ∅ !! name) as [v'|] eqn:E.
  - apply (proj1 (lookup_defined_properties _ _ _ Fn)) in E as Hin. clear E.
    apply object_entries_In in Hin as (Hw & v & Hin & ->). rewrite Hw.
    pose proof (getenv_In e name v Hnd Hin) as G. unfold getenv in G.
    destruct (find _ e) as [nv|] eqn:F.
    + rewrite G. reflexivity.
    + apply (find_none _ _ F) in Hin. cbn [fst] in Hin. unfold text_eqb in Hin.
      rewrite bool_decide_eq_true_2 in Hin by reflexivity. discriminate.
  - destruct (whitelisted name) eqn:Hw; [|reflexivity].
    destruct (find _ e) as [[n v]|] eqn:F; [|reflexivity].
    apply find_some in F as [Hin Hn]. cbn [fst] in Hn. unfold text_eqb in Hn.
    apply bool_decide_eq_true_1 in Hn. subst n.
    assert (Hobj : In (name, normalised v) (object_entries e)).
    { apply object_entries_In. split; [exact Hw|]. exists v. auto. }
    apply (proj2 (lookup_defined_properties _ _ _ Fn)) in Hobj. congruence.
Qed.

(** X8: generator, browser and accessor in a row. For a plain environment
    and a run without a failing operation, the script that was written
    loads, and with it in the window a key that has no build-time value
    resolves, for STAGE and for API_URL, to the variable of that name with
    its fields joined by single spaces, and to [undefined] when the
    environment has no such variable. *)
Theorem accessor_reads_generated_script status e w0 ime k :
  plain_environment e ->
  provided (get_property ime (key_name k)) = false ->
  k <> KeyENV_TEST ->
  exists w' content o,
    start_sh no_fault status e w0 = Some (status, w')
    /\ files w' !! front_env_js = Some content
    /\ js_load content = Loaded o
    /\ accessor k ime (window_with o)
       = Normal (match find (fun nv => text_eqb (fst nv) (key_name k)) e with
                 | Some nv => JString (normalised (snd nv))
                 | None => JUndefined
                 end).
Proof.
  intros H Hb Hk.
  pose proof (front_env_js_content_plain e H) as Hc.
  destruct (start_sh_writes_file no_fault (fun _ => eq_refl) status e w0 _ Hc)
    as (w' & E & F).
  eexists w', _, _. split; [exact E|]. split; [exact F|].
  split; [apply js_load_generated; exact H|].
  rewrite accessor_unfold, nullish_coalesce_missing by exact Hb.
  unfold window_env_member, window_with. cbn [_env_].
  rewrite entry_generated by exact H.
  destruct k; try congruence; reflexivity.
Qed.

Lemma accessor_reads_generated_script_witness :
  plain_environment env_qas
  /\ provided (get_property ∅ (key_name KeySTAGE)) = false
  /\ KeySTAGE <> KeyENV_TEST
  /\ exists w' content o,
       start_sh no_fault 0 env_qas empty_world = Some (0, w')
       /\ files w' !! front_env_js = Some content
       /\ js_load content = Loaded o
       /\ accessor KeySTAGE ∅ (window_with o) = Normal (JString (txt "QAS")).
Proof.
  assert (Hk : KeySTAGE <> KeyENV_TEST) by discriminate.
  assert (Hb : provided (get_property ∅ (key_name KeySTAGE)) = false)
    by (vm_compute; reflexivity).
  split; [exact env_qas_plain|]. split; [exact Hb|]. split; [exact Hk|].
  destruct (accessor_reads_generated_script 0 env_qas empty_world ∅ KeySTAGE
              env_qas_plain Hb Hk) as (w' & content & o & E & F & L & A).
  exists w', content, o. split; [exact E|]. split; [exact F|].
  split; [exact L|]. rewrite A. vm_compute. reflexivity.
Defined.

(** X9: ENV_TEST, which src/config/constants.ts reads, is not among the
    prefixes of start.sh: for a plain environment and a run without a
    failing operation the generated script does not define it, and without
    a build-time value the accessor resolves to [undefined] even when the
    environment sets ENV_TEST. A selected value with a double quote is not
    plain, and can bring the key in: see [start_sh_quote_defines_key]. *)
Theorem ENV_TEST_never_generated status e w0 ime :
  plain_environment e ->
  provided (get_property ime (key_name KeyENV_TEST)) = false ->
  exists w' content o,
    start_sh no_fault status e w0 = Some (status, w')
    /\ files w' !! front_env_js = Some content
    /\ js_load content = Loaded o
    /\ o !! txt "ENV_TEST" = None
    /\ ENV_TEST ime (window_with o) = Normal JUndefined.
Proof.
  intros H Hb.
  pose proof (front_env_js_content_plain e H) as Hc.
  destruct (start_sh_writes_file no_fault (fun _ => eq_refl) status e w0 _ Hc)
    as (w' & E & F).
  eexists w', _, _. split; [exact E|]. split; [exact F|].
  split; [apply js_load_generated; exact H|].
  pose proof (entry_generated e (txt "ENV_TEST") H) as En.
  change (whitelisted (txt "ENV_TEST")) with false in En. cbv iota in En.
  split.
  - unfold entry in En.
    destruct (fold_left define_property (object_entries e) ∅ !! txt "ENV_TEST");
      [discriminate|reflexivity].
  - change (ENV_TEST ime (window_with (fold_left define_property (object_entries e) ∅)))
      with (accessor KeyENV_TEST ime
              (window_with (fold_left define_property (object_entries e) ∅))).
    rewrite accessor_unfold, nullish_coalesce_missing by exact Hb.
    unfold window_env_member, window_with. cbn [_env_ key_name].
    rewrite En. reflexivity.
Qed.

Lemma env_stage_suffix_plain : plain_environment env_stage_suffix.
Proof.
  split; [|split; vm_compute; reflexivity].
  apply (bool_decide_unpack _). vm_compute. exact I.
Qed.

Lemma ENV_TEST_never_generated_witness :
  plain_environment env_stage_suffix
  /\ provided (get_property ∅ (key_name KeyENV_TEST)) = false
  /\ In (txt "ENV_TEST", txt "x") env_stage_suffix
  /\ exists w' content o,
       start_sh no_fault 0 env_stage_suffix empty_world = Some (0, w')
       /\ files w' !! front_env_js = Some content
       /\ js_load content = Loaded o
       /\ o !! txt "ENV_TEST" = None
       /\ ENV_TEST ∅ (window_with o) = Normal JUndefined.
Proof.
  assert (Hb : provided (get_property ∅ (key_name KeyENV_TEST)) = false)
    by (vm_compute; reflexivity).
  split; [exact env_stage_suffix_plain|]. split; [exact Hb|].
  split; [right; left; reflexivity|].
  exact (ENV_TEST_never_generated 0 env_stage_suffix empty_world ∅
           env_stage_suffix_plain Hb).
Defined.

(** ** When the accessor throws *)

Lemma nullish_coalesce_throws v w name :
  nullish_coalesce v (window_env_member w name) = ThrowTypeError
  <-> provided v = false /\ _env_ w = None.
Proof.
  unfold window_env_member.
  destruct v, (_env_ w); cbn;
    split; try (intros [? ?]); intros; try discriminate; auto.
Qed.

(** X10: evaluating an accessor throws exactly when the key has no
    build-time value and [window._env_] is not defined; in every other
    case it yields a value. *)
Theorem accessor_throws_iff (k : config_key) (ime : ImportMetaEnv) (w : Window) :
  accessor k ime w = ThrowTypeError
  <-> provided (get_property ime (key_name k)) = false /\ _env_ w = None.
Proof. rewrite accessor_unfold. apply nullish_coalesce_throws. Qed.

(** X12: the module with STAGE and API_URL is evaluated as a whole: it
    throws, and exports nothing, exactly when [window._env_] is not
    defined and one of the two keys has no build-time value; a build-time
    value for the other key does not save it. Otherwise it exports what
    the two accessors yield. *)
Theorem constants_ts_throws_iff (ime : ImportMetaEnv) (w : Window) :
  (constants_ts ime w = ModuleThrows
   <-> _env_ w = None
       /\ (provided (get_property ime (txt "STAGE")) = false
           \/ provided (get_property ime (txt "API_URL")) = false))
  /\ (forall stage api_url,
        constants_ts ime w = Exported stage api_url
        <-> STAGE ime w = Normal stage /\ API_URL ime w = Normal api_url).
Proof.
  pose proof (nullish_coalesce_throws (get_property ime (txt "STAGE")) w
                (txt "STAGE")) as TS.
  pose proof (nullish_coalesce_throws (get_property ime (txt "API_URL")) w
                (txt "API_URL")) as TA.
  fold (STAGE ime w) in TS. fold (API_URL ime w) in TA.
  unfold constants_ts. split.
  - destruct (STAGE ime w) as [s|].
    + destruct (API_URL ime w) as [a|].
      * split; [discriminate|]. intros [Hw [H|H]].
        -- discriminate (proj2 TS (conj H Hw)).
        -- discriminate (proj2 TA (conj H Hw)).
      * split; [|reflexivity]. intros _.
        destruct (proj1 TA eq_refl) as [H Hw]. auto.
    + split; [|reflexivity]. intros _.
      destruct (proj1 TS eq_refl) as [H Hw]. auto.
  - intros stage api_url. destruct (STAGE ime w) as [s|].
    + destruct (API_URL ime w) as [a|].
      * split; [intros [= -> ->]; auto|intros [[= ->] [= ->]]; reflexivity].
      * split; [discriminate|intros [_ H]; discriminate].
    + split; [discriminate|intros [H _]; discriminate].
Qed.

(** ** The transform and the rest of the document *)

(** X13: the transform leaves every other piece of text where it was: a
    text that overlaps neither the marker nor the script tag occurs in the
    output as often as in the input. *)
Theorem transform_keeps_other_text q html :
  no_overlap q ENV_marker = true -> no_overlap q script_tag = true ->
  no_overlap ENV_marker q = true -> no_overlap script_tag q = true ->
  occurrences q (transformIndexHtml html) = occurrences q html.
Proof.
  intros HqP HqR HPq HRq. unfold transformIndexHtml.
  assert (Ht : no_overlap (tail q) ENV_marker = true
               /\ no_overlap (tail q) script_tag = true).
  { destruct q as [|a q]; [split; reflexivity|].
    apply no_overlap_cons in HqP as [_ HqP].
    apply no_overlap_cons in HqR as [_ HqR]. split; assumption. }
  destruct Ht as [HtP HtR].
  induction html as [|c s IH].
  - rewrite (js_replace_nil _ _ ENV_marker_not_empty). reflexivity.
  - destruct (starts_with ENV_marker (c :: s)) eqn:E.
    + rewrite (js_replace_match _ _ script_tag_plain _ E).
      rewrite (starts_with_split _ _ E) at 2.
      rewrite !occurrences_skip by assumption. reflexivity.
    + rewrite (js_replace_step _ _ script_tag_plain _ _ E).
      cbn [occurrences].
      rewrite (starts_with_cons_js_replace _ _ script_tag_plain
                 ENV_marker_not_empty q c s HtP HtR).
      rewrite IH. reflexivity.
Qed.

Lemma transform_keeps_other_text_witness :
  no_overlap (txt "</body>") ENV_marker = true
  /\ no_overlap (txt "</body>") script_tag = true
  /\ no_overlap ENV_marker (txt "</body>") = true
  /\ no_overlap script_tag (txt "</body>") = true
  /\ occurrences (txt "</body>") (transformIndexHtml html_with_two_markers)
     = occurrences (txt "</body>") html_with_two_markers.
Proof.
  do 4 (split; [reflexivity|]).
  apply transform_keeps_other_text; reflexivity.
Defined.

(** X14: on a document with at most one marker the transform is
    idempotent: applying it to its own output changes nothing. *)
Theorem transform_idempotent html :
  occurrences ENV_marker html <= 1 ->
  transformIndexHtml (transformIndexHtml html) = transformIndexHtml html.
Proof.
  intros H. unfold transformIndexHtml at 1.
  apply (js_replace_absent _ _ script_tag_plain ENV_marker_not_empty).
  rewrite transform_removes_one_marker. lia.
Qed.

Lemma transform_idempotent_witness :
  occurrences ENV_marker html_with_marker <= 1
  /\ transformIndexHtml (transformIndexHtml html_with_marker)
     = transformIndexHtml html_with_marker.
Proof.
  assert (H : occurrences ENV_marker html_with_marker <= 1)
    by (vm_compute; lia).
  split; [exact H|]. exact (transform_idempotent html_with_marker H).
Defined.

(** ** A failed truncation *)

Section AfterFaults.

Variable fault : nat -> bool.

Variable k0 : nat.

Hypothesis fault_after : forall k, k0 <= k -> fault k = false.

Lemma redirect_after mode path out w :
  k0 <= length (trace w) ->
  redirect fault mode path out w
  = (0, log (WriteFile path out true)
          (log (OpenFile path mode true)
             (set_files (appended path out (opened mode path (files w))) w))).
Proof using fault_after.
  intros H. unfold redirect, is_event_ok.
  rewrite fault_after by exact H. cbn [negb log set_files trace].
  rewrite fault_after by (rewrite length_app; cbn [length]; lia).
  reflexivity.
Qed.

Lemma echo_to_append_after path header acc operands out :
  echo operands = Some out ->
  triple (holds_after k0 path header acc)
         (echo_to fault Append path operands)
         (fun _ => holds_after k0 path header (acc ++ [out])).
Proof using fault_after.
  intros E w [Hk H]. unfold echo_to. rewrite E, redirect_after by exact Hk.
  eexists _, _. split; [reflexivity|]. split.
  - cbn [log set_files trace]. rewrite !length_app. lia.
  - unfold holds in *. unfold appended, opened. cbn [log set_files files].
    rewrite H, lookup_insert_eq, H. f_equal.
    rewrite concat_app. cbn [concat]. rewrite app_nil_r, app_assoc.
    reflexivity.
Qed.

Lemma holds_after_log path header acc ev w :
  holds_after k0 path header acc w -> holds_after k0 path header acc (log ev w).
Proof.
  intros [Hk H]. split; [|exact H].
  cbn [log trace]. rewrite length_app. lia.
Qed.

Lemma outer_body_holds_after path header accs e prefix outs :
  loop_outputs e prefix = Some outs ->
  triple (holds_after k0 path header (concat accs))
         (vars ← lift (loop_words e prefix);
          sh_for vars (fun var =>
            value ← lift (eval_echo e var);
            echo_to fault Append path [property_line var value]))
         (fun _ => holds_after k0 path header (concat (accs ++ [outs]))).
Proof using fault_after.
  unfold loop_outputs. intros H.
  destruct (loop_words e prefix) as [vars|] eqn:E; [|discriminate].
  eapply triple_bind; [apply triple_lift; reflexivity|].
  intros a w [-> Hw]. revert w Hw.
  eapply triple_weaken;
    [eapply (triple_for
               (fun acc => holds_after k0 path header (concat accs ++ acc)))
       with (acc := []); [|exact H] | | ].
  - intros x y acc Hx. cbv beta in Hx. rewrite app_assoc.
    destruct (eval_echo e x) as [value|] eqn:Ev; [|discriminate].
    eapply triple_bind; [apply triple_lift; reflexivity|].
    intros b w [-> Hw]. eapply echo_to_append_after; eassumption.
  - intros w Hw. rewrite app_nil_r. exact Hw.
  - intros s w Hw. rewrite concat_app. cbn [concat app] in *.
    rewrite app_nil_r. exact Hw.
Qed.

(** The script from its loops on, when nothing fails any more. *)
Lemma start_sh_tail_after status e header outs :
  traverse (loop_outputs e) (fields ENV_VARS) = Some outs ->
  triple (holds_after k0 front_env_js header [])
         (sh_for (fields ENV_VARS) (fun prefix =>
            vars ← lift (loop_words e prefix);
            sh_for vars (fun var =>
              value ← lift (eval_echo e var);
              echo_to fault Append front_env_js [property_line var value])) ;;
          echo_to fault Append front_env_js [txt "};"] ;;
          echo_stdout [txt "Starting Nginx..."] ;;
          nginx status [txt "-g"; txt "daemon off;"])
         (fun s w =>
            s = status
            /\ files w !! front_env_js
               = Some (header ++ concat (concat outs) ++ txt "};" ++ [LF])).
Proof using fault_after.
  intros T.
  eapply triple_bind
    with (Q := fun _ => holds_after k0 front_env_js header (concat outs)).
  { eapply triple_weaken;
      [eapply (triple_for
                 (fun accs => holds_after k0 front_env_js header (concat accs)))
         with (acc := []); [|exact T] | auto | ].
    - intros x y acc. apply outer_body_holds_after.
    - intros s w Hw. exact Hw. }
  intros ?.
  eapply triple_bind; [eapply echo_to_append_after; reflexivity|]. intros ?.
  eapply triple_bind
    with (Q := fun _ => holds_after k0 front_env_js header
                          (concat outs ++ [txt "};" ++ [LF]])).
  { intros w Hw. eexists _, _. split; [reflexivity|].
    apply holds_after_log, Hw. }
  intros ? w [_ Hw]. eexists _, _. split; [reflexivity|].
  split; [reflexivity|]. unfold holds in Hw. cbn [log files].
  rewrite Hw. f_equal. rewrite concat_app. cbn [concat].
  rewrite app_nil_r, <- ?app_assoc. reflexivity.
Qed.

End AfterFaults.

(** X15: on a covered environment, when the shell cannot open
    front.env.js for [>] and every later operation succeeds, a file left
    by an earlier start is not replaced: it keeps its content, and the
    property lines and the closing line of the new run are appended to
    it. *)
Theorem start_sh_appends_to_stale_file fault status e w0 old :
  covered e = true ->
  files w0 !! front_env_js = Some old ->
  fault (length (trace w0) + 2) = true ->
  (forall k, length (trace w0) + 3 <= k -> fault k = false) ->
  exists w' rest,
    front_env_js_content e = Some (txt "window._env_ = {" ++ [LF] ++ rest)
    /\ start_sh fault status e w0 = Some (status, w')
    /\ files w' !! front_env_js = Some (old ++ rest).
Proof.
  intros C Hold Hf Hafter.
  destruct (covered_outputs e C) as (outs & T & Hc).
  pose proof (start_sh_tail_after fault (length (trace w0) + 3) Hafter
                status e old outs T) as Tail.
  set (w1 := log (Stdout (txt "Configuring environment variables..." ++ [LF])) w0).
  set (w2 := log (Mkdir config_dir (is_event_ok fault w1)) w1).
  set (w3 := log (OpenFile front_env_js Truncate false) w2).
  assert (H3 : holds_after (length (trace w0) + 3) front_env_js old [] w3).
  { split.
    - unfold w3, w2, w1. cbn [log trace]. rewrite !length_app. cbn [length]. lia.
    - unfold holds. cbn [concat]. rewrite app_nil_r. exact Hold. }
  destruct (Tail w3 H3) as (s & w' & E & -> & F).
  exists w', (concat (concat outs) ++ txt "};" ++ [LF]).
  split; [exact Hc|]. split; [|exact F].
  unfold start_sh, mbind, sh_bind.
  change (echo_stdout [txt "Configuring environment variables..."] w0)
    with (Some (0, w1)).
  cbv iota beta.
  assert (M : exists s2, mkdir_p fault config_dir w1 = Some (s2, w2)).
  { unfold mkdir_p, w2. destruct (is_event_ok fault w1); eauto. }
  destruct M as [s2 ->].
  assert (R : echo_to fault Truncate front_env_js [txt "window._env_ = {"] w2
              = Some (1, w3)).
  { unfold echo_to.
    change (echo [txt "window._env_ = {"])
      with (Some (txt "window._env_ = {" ++ [LF])).
    unfold redirect, is_event_ok.
    replace (length (trace w2)) with (length (trace w0) + 2)
      by (unfold w2, w1; cbn [log trace]; rewrite !length_app; cbn [length]; lia).
    rewrite Hf. reflexivity. }
  rewrite R. exact E.
Qed.

Lemma start_sh_appends_to_stale_file_witness :
  covered env_qas = true
  /\ exists w' rest,
       front_env_js_content env_qas
       = Some (txt "window._env_ = {" ++ [LF] ++ rest)
       /\ start_sh truncation_fails 0 env_qas world_with_stale_file
          = Some (0, w')
       /\ files w' !! front_env_js
          = Some (txt "window._env_ = { STAGE: 'OLD' };" ++ rest).
Proof.
  assert (C : covered env_qas = true) by (vm_compute; reflexivity).
  split; [exact C|].
  apply (start_sh_appends_to_stale_file truncation_fails 0 env_qas
           world_with_stale_file _ C).
  - vm_compute. reflexivity.
  - reflexivity.
  - intros k Hk. unfold truncation_fails, fails_at. cbn [existsb].
    cbn [world_with_stale_file trace length Nat.add] in Hk.
    destruct (Nat.eqb_spec k 2); [lia|reflexivity].
Defined.

(** ** The variables of the two loops *)

(** X5: on a well-formed environment the two passes of the outer loop
    visit, between them, every variable whose name starts with STAGE or
    API_URL exactly once, and no other variable. *)
Theorem loop_words_once e :
  forallb well_formed_entry e = true ->
  exists stage_vars api_vars,
    loop_words e (txt "STAGE") = Some stage_vars
    /\ loop_words e (txt "API_URL") = Some api_vars
    /\ Permutation (stage_vars ++ api_vars)
         (map fst (List.filter (fun nv => whitelisted (fst nv)) e)).
Proof.
  intros H. eexists _, _.
  split; [apply loop_words_well_formed; [exact H|reflexivity]|].
  split; [apply loop_words_well_formed; [exact H|reflexivity]|].
  rewrite <- map_app. apply Permutation_map.
  apply selected_entries_rearranged.
Qed.

Lemma loop_words_once_witness :
  forallb well_formed_entry env_with_home = true
  /\ exists stage_vars api_vars,
       loop_words env_with_home (txt "STAGE") = Some stage_vars
       /\ loop_words env_with_home (txt "API_URL") = Some api_vars
       /\ Permutation (stage_vars ++ api_vars) [txt "STAGE"; txt "API_URL"].
Proof.
  assert (H : forallb well_formed_entry env_with_home = true)
    by (vm_compute; reflexivity).
  split; [exact H|]. exact (loop_words_once env_with_home H).
Defined.

(** A double quote in a selected value ends the string literal, and what
    follows it is read as script: here the value of STAGE defines ENV_TEST,
    a key outside the whitelist. *)
Example start_sh_quote_defines_key :
  exists w' o,
    start_sh no_fault 0 env_with_injection empty_world = Some (0, w')
    /\ files w' !! front_env_js
       = Some (txt "window._env_ = {" ++ [LF]
                 ++ txt "    STAGE: " ++ [DQ] ++ txt "x" ++ [DQ]
                 ++ txt ", ENV_TEST: " ++ [DQ] ++ txt "y" ++ [DQ]
                 ++ txt "," ++ [LF]
                 ++ txt "};" ++ [LF])
    /\ js_load (txt "window._env_ = {" ++ [LF]
                  ++ txt "    STAGE: " ++ [DQ] ++ txt "x" ++ [DQ]
                  ++ txt ", ENV_TEST: " ++ [DQ] ++ txt "y" ++ [DQ]
                  ++ txt "," ++ [LF]
                  ++ txt "};" ++ [LF]) = Loaded o
    /\ o !! txt "STAGE" = Some (txt "x")
    /\ o !! txt "ENV_TEST" = Some (txt "y").
Proof. eexists _, _. repeat split; vm_compute; reflexivity. Qed.
